(** * Spectral preprocessing transforms (src/preprocessing.py)

    A shallow embedding of [msc], [snv], [smooth] and [savgol].

    - NumPy arrays are mutable objects: a two-dimensional array lives in a
      store ([heap]) under a location, and the four functions are written in
      a state-and-exception monad ([py]) so that copies, fresh outputs and
      in-place row writes are visible.
    - float64 arithmetic is an interface ([Float64]) with two instances:
      [B64], the IEEE-754 binary64 numbers of the machine, on which the code
      can be run, and [XR], exact real arithmetic extended with the IEEE
      special values, in which the algebraic properties are stated.
    - What the code delegates to NumPy and SciPy ([np.mean], [np.std],
      [np.polyfit], [ndimage.convolve], [signal.savgol_filter],
      [signal.windows.get_window]) is modelled after those libraries'
      sources; each model says where it stops. *)

From Stdlib Require Import Reals Lra Lia ZArith Floats.
From stdpp Require Import gmap strings list.


(** ** Exceptions and results *)

Inductive exn : Type :=
  | TypeError (msg : string)
  | ValueError (msg : string)
  | RuntimeError (msg : string)
  | LinAlgError (msg : string).

Inductive result (A : Type) : Type :=
  | Ok (a : A)
  | Err (e : exn).
Arguments Ok {A} a.
Arguments Err {A} e.

Definition is_ok {A} (r : result A) : bool :=
  match r with Ok _ => true | Err _ => false end.

Definition res_bind {A B} (r : result A) (k : A → result B) : result B :=
  match r with Ok a => k a | Err e => Err e end.

(** [[f(x) for x in l]], stopping at the first exception. *)
Fixpoint res_map {A B} (f : A → result B) (l : list A) : result (list B) :=
  match l with
  | [] => Ok []
  | x :: l' =>
      res_bind (f x) (λ y, res_bind (res_map f l') (λ ys, Ok (y :: ys)))
  end.

(** ** The float64 interface *)

Class Float64 (F : Type) : Type := {
  f_zero : F;
  f_one : F;
  f_add : F → F → F;
  f_sub : F → F → F;
  f_mul : F → F → F;
  f_div : F → F → F;
  f_sqrt : F → F;
  f_abs : F → F;
  (** conversion of an element count to float64 *)
  f_of_nat : nat → F;
  (** DBL_EPSILON *)
  f_eps : F;
  f_ltb : F → F → bool;
  (** neither an infinity nor a NaN *)
  f_is_finite : F → bool;
  (** [x == 0.0] *)
  f_is_zero : F → bool;
}.

(** The LAPACK driver behind [numpy.linalg.lstsq] ([dgelsd], an iterative
    singular value decomposition) is an interface too: [lstsq2 u v y] stands
    for [lstsq(A, y, rcond)[0]] where [A] has the two columns [u] and [v].
    The instance for [XR] is the minimum-norm least-squares solution that
    the driver approximates; over [B64] the theorems hold for every
    solver. *)
Class Lapack (F : Type) : Type := {
  lstsq2 : list F → list F → list F → result (F * F);
}.

(** What [savgol] and [smooth] take from SciPy as it is, the code of
    both being outside this repository:
    - [win_equiv name] is the generator that [scipy.signal.windows] keeps
      under [name] when the window needs no parameter: [w n k] is sample [k]
      of the window of length [n];
    - [savgol_entry window_length polyorder deriv delta x i] is entry [i] of
      the row that [savgol_filter] computes from the row [x] once its
      arguments have passed the checks (the coefficients by least squares,
      the convolution and the polynomial fit of both edges). *)
Class SciPy (F : Type) : Type := {
  win_equiv : string → option (nat → nat → F);
  savgol_entry : Z → Z → Z → F → list F → nat → F;
}.

(** ** Arrays and the store *)

(** A two-dimensional float64 array of shape [(length rows, ncols)]. The
    column count is kept apart from the rows, as NumPy keeps it: an array
    with no rows still has a width. *)
Record ndarray (F : Type) : Type := NdArray {
  ncols : nat;
  rows : list (list F);
}.
Arguments NdArray {F} ncols rows.
Arguments ncols {F} _.
Arguments rows {F} _.

Definition nrows {F} (a : ndarray F) : nat := length (rows a).
Definition shape {F} (a : ndarray F) : nat * nat := (nrows a, ncols a).

(** Every row has [ncols] entries. *)
Definition rect {F} (a : ndarray F) : Prop :=
  Forall (λ r, length r = ncols a) (rows a).

Definition loc : Type := positive.
Abbreviation heap F := (gmap loc (ndarray F)).

(** Computations over the store that may raise. An exception leaves the
    store as it was when it was raised. *)
Definition py (F A : Type) : Type := heap F → result A * heap F.

Definition ret {F A} (a : A) : py F A := λ σ, (Ok a, σ).
Definition bind {F A B} (m : py F A) (k : A → py F B) : py F B :=
  λ σ, match m σ with
       | (Ok a, σ') => k a σ'
       | (Err e, σ') => (Err e, σ')
       end.
Definition lift {F A} (r : result A) : py F A := λ σ, (r, σ).

#[export] Instance py_ret {F} : MRet (py F) := λ A, @ret F A.
#[export] Instance py_bind {F} : MBind (py F) := λ A B k m, bind m k.

(** [for i in idx: body(i)] and [for i in range(n): body(i)]. *)
Fixpoint for_each {F} (idx : list nat) (body : nat → py F unit) : py F unit :=
  match idx with
  | [] => ret tt
  | i :: idx' => body i ;; for_each idx' body
  end.
Definition for_range {F} (n : nat) (body : nat → py F unit) : py F unit :=
  for_each (seq 0 n) body.

Section Numpy.
Context {F : Type} `{Float64 F} `{Lapack F} `{SciPy F}.
Local Open Scope string_scope.

Definition empty_array : ndarray F := NdArray 0 [].

(** The array behind a reference. *)
Definition deref (l : loc) (σ : heap F) : ndarray F :=
  default empty_array (σ !! l).

(** The value of the array behind a reference, for the library calls
    that read a whole array. *)
Definition load (l : loc) : py F (ndarray F) :=
  λ σ, (Ok (deref l σ), σ).

(** A new array object holding [a]. *)
Definition new_array (a : ndarray F) : py F loc :=
  λ σ, let l := fresh (dom σ) in (Ok l, <[l := a]> σ).

(** [a.copy()] *)
Definition np_copy (l : loc) : py F loc :=
  λ σ, new_array (deref l σ) σ.

(** [np.zeros_like(a)] *)
Definition zeros_like (a : ndarray F) : ndarray F :=
  NdArray (ncols a) (replicate (nrows a) (replicate (ncols a) f_zero)).
Definition np_zeros_like (l : loc) : py F loc :=
  λ σ, new_array (zeros_like (deref l σ)) σ.

(** [a.shape[0]] *)
Definition shape0 (l : loc) : py F nat :=
  λ σ, (Ok (nrows (deref l σ)), σ).

(** [a[i,:]] read as a value. *)
Definition get_row (l : loc) (i : nat) : py F (list F) :=
  λ σ, (Ok (default [] (rows (deref l σ) !! i)), σ).

(** [a[i,:] = v]: a write through the reference. *)
Definition set_row (l : loc) (i : nat) (v : list F) : py F unit :=
  λ σ, let a := deref l σ in
       (Ok tt, <[l := NdArray (ncols a) (<[i := v]> (rows a))]> σ).

(** Elementwise operations of a vector with a scalar. *)
Definition vsub (v : list F) (c : F) : list F := (λ x, f_sub x c) <$> v.
Definition vdiv (v : list F) (c : F) : list F := (λ x, f_div x c) <$> v.

(** A sum along an axis that is not the contiguous one (the columns of a
    C-ordered matrix, [axis=0]): NumPy adds one row after the other to an
    accumulator that starts at 0.0. *)
Definition seq_sum (v : list F) : F := fold_left f_add v f_zero.

(** [np.sum] of a contiguous vector is NumPy's pairwise summation
    ([DOUBLE_pairwise_sum]): fewer than 8 elements are added in order; up
    to 128 elements go to 8 accumulators, element [i] to accumulator
    [i mod 8], which are combined as
    [((r0+r1)+(r2+r3))+((r4+r5)+(r6+r7))] before the [n mod 8] elements
    left over are added in order; a longer vector is split at
    [n2 = n/2 - (n/2) mod 8] and the sums of both parts are added. (The
    accumulator the reduction starts from is a zero; it can change the sign
    of a zero sum and nothing else.) *)
Definition tree8 (r : list F) : F :=
  match r with
  | [r0; r1; r2; r3; r4; r5; r6; r7] =>
      f_add (f_add (f_add r0 r1) (f_add r2 r3))
            (f_add (f_add r4 r5) (f_add r6 r7))
  | _ => f_zero
  end.

Fixpoint add_blocks (r a : list F) : list F * list F :=
  match a with
  | a0 :: a1 :: a2 :: a3 :: a4 :: a5 :: a6 :: a7 :: a' =>
      add_blocks (zip_with f_add r [a0; a1; a2; a3; a4; a5; a6; a7]) a'
  | _ => (r, a)
  end.

Definition block_sum (a : list F) : F :=
  match a with
  | a0 :: a1 :: a2 :: a3 :: a4 :: a5 :: a6 :: a7 :: a' =>
      let ra := add_blocks [a0; a1; a2; a3; a4; a5; a6; a7] a' in
      fold_left f_add ra.2 (tree8 ra.1)
  | _ => fold_left f_add a f_zero
  end.

Fixpoint pairwise_sum_rec (fuel : nat) (a : list F) : F :=
  match fuel with
  | 0 => block_sum a
  | S fuel' =>
      if decide (length a ≤ 128)%nat then block_sum a
      else
        let n2 := (length a / 2 - (length a / 2) mod 8)%nat in
        f_add (pairwise_sum_rec fuel' (take n2 a))
              (pairwise_sum_rec fuel' (drop n2 a))
  end.

Definition pairwise_sum (a : list F) : F := pairwise_sum_rec (length a) a.

Definition np_sum (v : list F) : F := pairwise_sum v.

(** [np.mean] of a vector: the sum over the count. *)
Definition np_mean (v : list F) : F :=
  f_div (np_sum v) (f_of_nat (length v)).

(** [np.std] of a vector with the default [ddof=0]:
    [sqrt(mean(abs(x - x.mean())**2))]. *)
Definition np_var (v : list F) : F :=
  let d := vsub v (np_mean v) in
  f_div (np_sum ((λ x, f_mul x x) <$> d)) (f_of_nat (length v)).
Definition np_std (v : list F) : F := f_sqrt (np_var v).

(** Column [j] of the rows. *)
Definition column (rs : list (list F)) (j : nat) : list F :=
  (λ r, default f_zero (r !! j)) <$> rs.

(** [np.mean(a, axis=0)]: the sum of each column, taken down the rows,
    over the number of rows. *)
Definition mean_axis0 (a : ndarray F) : list F :=
  (λ j, f_div (seq_sum (column (rows a) j)) (f_of_nat (nrows a)))
    <$> seq 0 (ncols a).
Definition np_mean_axis0 (l : loc) : py F (list F) :=
  λ σ, (Ok (mean_axis0 (deref l σ)), σ).

(** *** snv (lines 40-59) *)

Definition snv (input_data : loc) : py F loc :=
  output_data ← np_zeros_like input_data;
  n ← shape0 input_data;
  for_range n (λ i,
    r ← get_row input_data i;
    set_row output_data i (vdiv (vsub r (np_mean r)) (np_std r)));;
  ret output_data.

(** What the specification says of [snv], row by row. *)
Definition snv_row (r : list F) : list F :=
  vdiv (vsub r (np_mean r)) (np_std r).
Definition snv_spec (a : ndarray F) : ndarray F :=
  NdArray (ncols a) (snv_row <$> rows a).

(** *** msc (lines 7-38) *)

Definition sq (x : F) : F := f_mul x x.

(** [np.polyfit(x, y, 1, full=True)[0]] as the pair
    [(fit[0][0], fit[0][1])] of slope and intercept. After its argument
    checks NumPy builds [lhs = vander(x, 2)], whose columns are [x] and
    ones, divides each column by its Euclidean norm, solves with [lstsq]
    and divides the solution by the norms again. The norms are sums down
    the rows of [lhs] ([axis=0]). *)
Definition polyfit (x y : list F) : result (F * F) :=
  if decide (length x = 0) then
    Err (TypeError "expected non-empty vector for x")
  else if decide (length x = length y) then
    let ones := replicate (length x) f_one in
    let scale0 := f_sqrt (seq_sum (sq <$> x)) in
    let scale1 := f_sqrt (seq_sum (sq <$> ones)) in
    res_bind (lstsq2 (vdiv x scale0) (vdiv ones scale1) y)
      (λ c, Ok (f_div c.1 scale0, f_div c.2 scale1))
  else Err (TypeError "expected x and y to have same length").

Definition msc (input_data : loc) (reference : option (list F))
  : py F loc :=
  input_data ← np_copy input_data;
  n ← shape0 input_data;
  for_range n (λ i,
    r ← get_row input_data i;
    set_row input_data i (vsub r (np_mean r)));;
  ref ← match reference with
        | None => np_mean_axis0 input_data
        | Some r => ret r
        end;
  data_msc ← np_zeros_like input_data;
  for_range n (λ i,
    r ← get_row input_data i;
    fit ← lift (polyfit ref r);
    set_row data_msc i (vdiv (vsub r fit.2) fit.1));;
  ret data_msc.

(** *** smooth (lines 62-82) *)

(** [np.ones(n)] *)
Definition np_ones (n : Z) : result (list F) :=
  if decide (n < 0)%Z then
    Err (ValueError "negative dimensions are not allowed")
  else Ok (replicate (Z.to_nat n) f_one).

(** [scipy.signal.windows.get_window(window, Nx)] for a window given by
    name: [ValueError] for a name without a generator (SciPy words the
    message by the case) and for a length below 1. *)
Definition get_window (window : string) (Nx : Z) : result (list F) :=
  match win_equiv window with
  | None => Err (ValueError "Unknown window type.")
  | Some w =>
      if decide (Nx < 1)%Z then
        Err (ValueError "Window length M must be a positive integer")
      else Ok (w (Z.to_nat Nx) <$> seq 0 (Z.to_nat Nx))
  end.

(** The boundary modes of [scipy.ndimage]. *)
Inductive extend_mode : Type :=
  | Nearest | Wrap | Reflect | Mirror | Constant.

Definition extend_mode_to_code (mode : string) : result extend_mode :=
  if decide (mode = "nearest") then Ok Nearest
  else if decide (mode = "wrap") then Ok Wrap
  else if decide (mode = "reflect" ∨ mode = "grid-mirror") then Ok Reflect
  else if decide (mode = "mirror") then Ok Mirror
  else if decide (mode = "constant") then Ok Constant
  else if decide (mode = "grid-wrap") then Ok Wrap
  else if decide (mode = "grid-constant") then Ok Constant
  else Err (RuntimeError "boundary mode not supported").

(** Where position [i] of the extended signal reads in a signal of [len]
    samples; [None] is the constant border. *)
Definition extend_index (m : extend_mode) (len i : Z) : option Z :=
  if decide (0 ≤ i < len)%Z then Some i
  else match m with
       | Constant => None
       | Nearest => Some (if decide (i < 0)%Z then 0 else len - 1)%Z
       | Wrap => Some (if decide (len ≤ 1)%Z then 0 else i `mod` len)%Z
       | Reflect =>
           Some (if decide (len ≤ 1)%Z then 0
                 else let p := i `mod` (2 * len) in
                      if decide (p < len)%Z then p else 2 * len - 1 - p)%Z
       | Mirror =>
           Some (if decide (len ≤ 1)%Z then 0
                 else let p := i `mod` (2 * len - 2) in
                      if decide (p < len)%Z then p else 2 * len - 2 - p)%Z
       end.

(** The sample at position [i] of the extended signal ([cval] is 0.0). *)
Definition sample (m : extend_mode) (input : list F) (i : Z) : F :=
  match extend_index m (Z.of_nat (length input)) i with
  | Some k => default f_zero (input !! Z.to_nat k)
  | None => f_zero
  end.

(** One output sample of [NI_Correlate]: the filter [fw] is laid with its
    element [center] on position [i]; the weights of magnitude at most
    DBL_EPSILON are left out of the footprint; the accumulator starts at
    0.0. *)
Definition correlate_point (m : extend_mode) (input fw : list F)
    (center : Z) (i : nat) : F :=
  fold_left
    (λ tmp jw,
       if f_ltb f_eps (f_abs jw.2)
       then f_add tmp
              (f_mul jw.2 (sample m input (Z.of_nat i + Z.of_nat jw.1 - center)))
       else tmp)
    (imap pair fw) f_zero.

(** [scipy.ndimage.convolve(input, weights, mode=mode)] on a vector: the
    weights are reversed, an even length moves the origin by one, and the
    result is the correlation. *)
Definition nd_convolve (input weights : list F) (mode : string)
  : result (list F) :=
  if decide (length weights = 0) then
    Err (RuntimeError "filter weights array has incorrect shape.")
  else
    let size := Z.of_nat (length weights) in
    let origin := (if Z.even size then -1 else 0)%Z in
    res_bind (extend_mode_to_code mode) (λ m,
      Ok (correlate_point m input (reverse weights) (size `div` 2 + origin)
            <$> seq 0 (length input))).

(** Line 80, the body of the loop:
    [spectra[row,:] = nd.convolve(spectra[row,:], window, mode=mode)]. *)
Definition smooth_row (spectra : loc) (window : list F) (mode : string)
    (row : nat) : py F unit :=
  r ← get_row spectra row;
  c ← lift (nd_convolve r window mode);
  set_row spectra row c.

Definition smooth (spectra : loc) (filter_win : Z)
    (window_type mode : string) : py F loc :=
  window ← lift (if decide (window_type = "flat")
                 then np_ones filter_win
                 else get_window window_type filter_win);
  let window := vdiv window (np_sum window) in
  n ← shape0 spectra;
  for_range n (smooth_row spectra window mode);;
  ret spectra.

(** *** savgol (lines 85-98) *)

(** [scipy.signal.savgol_filter(x, window_length, polyorder, deriv,
    delta=delta, axis=1)] with the default [mode='interp']. The checks are
    those of [savgol_coeffs] and [savgol_filter], in their order: the
    polynomial order against the window, the position of the window's
    centre (which refuses a window below 1), a negative [deriv] in the
    factorial, the window against the number of channels, a negative
    [polyorder] in the polynomial fit of the edges; all raise
    [ValueError], and so does a matrix without rows. An even window is
    accepted, and a [deriv] above [polyorder] is no error: the
    coefficients are then all zero. *)
Definition savgol_checks (window_length polyorder deriv : Z)
    (size n_rows : nat) : result unit :=
  if decide (window_length ≤ polyorder)%Z then
    Err (ValueError "polyorder must be less than window_length.")
  else if decide (window_length < 1)%Z then
    Err (ValueError "pos must be nonnegative and less than window_length.")
  else if decide (deriv ≤ polyorder ∧ deriv < 0)%Z then
    Err (ValueError "factorial() not defined for negative values")
  else if decide (Z.of_nat size < window_length)%Z then
    Err (ValueError
           "If mode is 'interp', window_length must be less than or equal to the size of x.")
  else if decide (polyorder < 0)%Z then
    Err (ValueError "expected deg >= 0")
  else if decide (n_rows = 0) then
    Err (ValueError "cannot filter an array without rows")
  else Ok tt.

(** The filtered row: [savgol_filter] convolves into an array of the
    shape of its input and writes the fitted edges into that array, so
    that the row it returns has an entry for every entry of [x]. *)
Definition savgol_row (window_length polyorder deriv : Z) (delta : F)
    (x : list F) : result (list F) :=
  Ok (imap (λ i _, savgol_entry window_length polyorder deriv delta x i) x).

Definition savgol_filter (x : loc) (window_length polyorder deriv : Z)
    (delta : F) : py F loc :=
  a ← load x;
  lift (savgol_checks window_length polyorder deriv (ncols a) (nrows a));;
  y ← lift (res_map (savgol_row window_length polyorder deriv delta)
              (rows a));
  new_array (NdArray (ncols a) y).

Definition savgol (spectra : loc)
    (filter_win poly_order deriv_order : Z) (delta : F) : py F loc :=
  savgol_filter spectra filter_win poly_order deriv_order delta.

End Numpy.

(** ** The machine instance: IEEE-754 binary64 *)

#[export] Instance B64 : Float64 float := {|
  f_zero := 0%float;
  f_one := 1%float;
  f_add := PrimFloat.add;
  f_sub := PrimFloat.sub;
  f_mul := PrimFloat.mul;
  f_div := PrimFloat.div;
  f_sqrt := PrimFloat.sqrt;
  f_abs := PrimFloat.abs;
  f_of_nat := λ n, PrimFloat.of_uint63 (Uint63.of_Z (Z.of_nat n));
  f_eps := 0x1p-52%float;
  f_ltb := PrimFloat.ltb;
  f_is_finite := PrimFloat.is_finite;
  f_is_zero := PrimFloat.is_zero;
|}.

(** ** The exact instance: real numbers with the IEEE special values

    [Fin x] is a finite value, computed without rounding and without
    overflow; the infinities and NaN combine as IEEE-754 has them. The sign
    of a zero is not kept: a zero divisor counts as +0. *)

Inductive xreal : Type :=
  | Fin (x : R)
  | PInf
  | NInf
  | NaN.

#[export] Instance R_eq_dec : EqDecision R := Req_dec_T.
#[export] Instance Rlt_decision (a b : R) : Decision (a < b)%R := Rlt_dec a b.
#[export] Instance Rle_decision (a b : R) : Decision (a <= b)%R := Rle_dec a b.

Definition signed_inf (positive : bool) : xreal :=
  if positive then PInf else NInf.
Definition Rpositive (a : R) : bool := bool_decide (0 < a)%R.

Definition xr_neg (x : xreal) : xreal :=
  match x with
  | Fin a => Fin (- a)
  | PInf => NInf
  | NInf => PInf
  | NaN => NaN
  end.

Definition xr_add (x y : xreal) : xreal :=
  match x, y with
  | NaN, _ | _, NaN => NaN
  | Fin a, Fin b => Fin (a + b)
  | PInf, NInf | NInf, PInf => NaN
  | PInf, _ | _, PInf => PInf
  | NInf, _ | _, NInf => NInf
  end.

Definition xr_sub (x y : xreal) : xreal := xr_add x (xr_neg y).

Definition xr_mul (x y : xreal) : xreal :=
  match x, y with
  | NaN, _ | _, NaN => NaN
  | Fin a, Fin b => Fin (a * b)
  | Fin a, PInf | PInf, Fin a =>
      if decide (a = 0%R) then NaN else signed_inf (Rpositive a)
  | Fin a, NInf | NInf, Fin a =>
      if decide (a = 0%R) then NaN else signed_inf (negb (Rpositive a))
  | PInf, PInf | NInf, NInf => PInf
  | PInf, NInf | NInf, PInf => NInf
  end.

Definition xr_div (x y : xreal) : xreal :=
  match x, y with
  | NaN, _ | _, NaN => NaN
  | Fin a, Fin b =>
      if decide (b = 0%R)
      then if decide (a = 0%R) then NaN else signed_inf (Rpositive a)
      else Fin (a / b)
  | Fin _, (PInf | NInf) => Fin 0
  | (PInf | NInf), (PInf | NInf) => NaN
  | PInf, Fin b => signed_inf (bool_decide (0 <= b)%R)
  | NInf, Fin b => signed_inf (bool_decide (b < 0)%R)
  end.

Definition xr_sqrt (x : xreal) : xreal :=
  match x with
  | Fin a => if decide (a < 0)%R then NaN else Fin (R_sqrt.sqrt a)
  | PInf => PInf
  | NInf | NaN => NaN
  end.

Definition xr_abs (x : xreal) : xreal :=
  match x with
  | Fin a => Fin (Rabs a)
  | PInf | NInf => PInf
  | NaN => NaN
  end.

Definition xr_ltb (x y : xreal) : bool :=
  match x, y with
  | NaN, _ | _, NaN => false
  | Fin a, Fin b => bool_decide (a < b)%R
  | NInf, (Fin _ | PInf) => true
  | Fin _, PInf => true
  | _, _ => false
  end.

Definition xr_is_finite (x : xreal) : bool :=
  match x with Fin _ => true | _ => false end.

Definition xr_is_zero (x : xreal) : bool :=
  match x with Fin a => bool_decide (a = 0%R) | _ => false end.

#[export] Instance XR : Float64 xreal := {|
  f_zero := Fin 0;
  f_one := Fin 1;
  f_add := xr_add;
  f_sub := xr_sub;
  f_mul := xr_mul;
  f_div := xr_div;
  f_sqrt := xr_sqrt;
  f_abs := xr_abs;
  f_of_nat := λ n, Fin (INR n);
  f_eps := Fin (/ 2 ^ 52);
  f_ltb := xr_ltb;
  f_is_finite := xr_is_finite;
  f_is_zero := xr_is_zero;
|}.

(** The finite values of a vector, when all of them are. *)
Fixpoint reals_of (v : list xreal) : option (list R) :=
  match v with
  | [] => Some []
  | Fin a :: v' => cons a <$> reals_of v'
  | _ :: _ => None
  end.

(** Sums and inner products of real vectors. *)
Definition rsum (v : list R) : R := foldr Rplus 0%R v.
Definition rdot (u v : list R) : R := rsum (zip_with Rmult u v).

(** The least-squares solution for two columns, from their inner products
    [uu], [uv], [vv] and their inner products [uy], [vy] with the right-hand
    side: Cramer's rule on the normal equations when the columns are
    independent; otherwise the solution of minimum norm, which for a matrix
    [A] of rank one is [A^T y / |A|^2], and 0 for the zero matrix. *)
Definition solve2 (uu uv vv uy vy : R) : R * R :=
  let det := (uu * vv - uv * uv)%R in
  if decide (det = 0%R) then
    if decide (uu + vv = 0)%R then (0, 0)%R
    else (uy / (uu + vv), vy / (uu + vv))%R
  else ((uy * vv - uv * vy) / det, (uu * vy - uv * uy) / det)%R.

Definition rlstsq2 (u v y : list R) : R * R :=
  solve2 (rdot u u) (rdot u v) (rdot v v) (rdot u y) (rdot v y).

(** [lstsq] in exact arithmetic for the two columns [u] and [v] (the
    cut-off [rcond] on the singular values is taken at its limit 0). An
    entry of the matrix that is not finite makes the driver fail to
    converge, which NumPy raises as [LinAlgError]; an entry of the
    right-hand side that is not finite does not, and comes back as NaN
    coefficients. *)
Definition xr_lstsq2 (u v y : list xreal) : result (xreal * xreal) :=
  match reals_of u, reals_of v with
  | Some u, Some v =>
      match reals_of y with
      | Some y => Ok (Fin (rlstsq2 u v y).1, Fin (rlstsq2 u v y).2)
      | None => Ok (NaN, NaN)
      end
  | _, _ =>
      Err (LinAlgError "SVD did not converge in Linear Least Squares"%string)
  end.

#[export] Instance XR_lapack : Lapack xreal := {| lstsq2 := xr_lstsq2 |}.

(** ** The row loops, as functions on rows

    Every loop of the module reads row [i], computes a new row from it and
    writes it at index [i] of an array: the array read ([src = Some ra]) is
    another array than the one written, or ([src = None]) the very same. *)
Fixpoint run_rows {F} (g : list F → result (list F))
    (src : option (list (list F))) (idx : list nat) (acc : list (list F))
  : result unit * list (list F) :=
  match idx with
  | [] => (Ok tt, acc)
  | i :: idx' =>
      match g (default [] (default acc src !! i)) with
      | Ok v => run_rows g src idx' (<[i := v]> acc)
      | Err e => (Err e, acc)
      end
  end.

(** ** What the specification says of [msc], as functions on values *)

Section MscSpec.
Context {F : Type} `{Float64 F} `{Lapack F}.

(** Step 1: every row minus its own mean. *)
Definition center_rows (a : ndarray F) : ndarray F :=
  NdArray (ncols a) ((λ r, vsub r (np_mean r)) <$> rows a).

(** Step 2: the reference. *)
Definition msc_reference (a : ndarray F) (reference : option (list F))
  : list F :=
  match reference with
  | None => mean_axis0 (center_rows a)
  | Some r => r
  end.

(** Steps 3 and 4 for one row. *)
Definition msc_row (ref r : list F) : result (list F) :=
  res_bind (polyfit ref r) (λ fit, Ok (vdiv (vsub r fit.2) fit.1)).

Definition msc_spec (a : ndarray F) (reference : option (list F))
  : result (ndarray F) :=
  res_bind
    (res_map (msc_row (msc_reference a reference)) (rows (center_rows a)))
    (λ rs, Ok (NdArray (ncols a) rs)).
End MscSpec.

(** ** What the specification says of [smooth] and [savgol] *)

Section FilterSpec.
Context {F : Type} `{Float64 F} `{SciPy F}.

(** Steps 1 and 2 of [smooth]: the window, normalised to sum 1. *)
Definition smooth_window (filter_win : Z) (window_type : string)
  : result (list F) :=
  res_bind
    (if decide (window_type = "flat"%string)
     then np_ones filter_win
     else get_window window_type filter_win)
    (λ w, Ok (vdiv w (np_sum w))).

(** Step 3: every row convolved with the window. *)
Definition smooth_spec (a : ndarray F) (filter_win : Z)
    (window_type mode : string) : result (ndarray F) :=
  res_bind (smooth_window filter_win window_type) (λ w,
    res_bind (res_map (λ r, nd_convolve r w mode) (rows a)) (λ rs,
      Ok (NdArray (ncols a) rs))).

(** [savgol]: the checks, then every row filtered. *)
Definition savgol_spec (a : ndarray F)
    (filter_win poly_order deriv_order : Z) (delta : F)
  : result (ndarray F) :=
  res_bind
    (savgol_checks filter_win poly_order deriv_order (ncols a) (nrows a))
    (λ _,
      res_bind
        (res_map (savgol_row filter_win poly_order deriv_order delta)
           (rows a))
        (λ rs, Ok (NdArray (ncols a) rs))).
End FilterSpec.

(** ** Outcomes of a call *)

(** The call returned an array satisfying [P]. *)
Definition returns {F} (r : result loc * heap F) (P : ndarray F → Prop)
  : Prop :=
  ∃ l a, r.1 = Ok l ∧ r.2 !! l = Some a ∧ P a.

(** If the call returned, it returned an array satisfying [P]. *)
Definition if_returns {F} (r : result loc * heap F) (P : ndarray F → Prop)
  : Prop :=
  ∀ l, r.1 = Ok l → ∃ a, r.2 !! l = Some a ∧ P a.

(** Every array of [σ] is still there, with the same contents. *)
Definition preserves {F} (σ : heap F) (r : result loc * heap F) : Prop :=
  ∀ l a, σ !! l = Some a → r.2 !! l = Some a ∧ r.1 ≠ Ok l.

(** The call raised [e] and the store is [σ]. *)
Definition raises {F} (r : result loc * heap F) (e : exn) (σ : heap F)
  : Prop :=
  r = (Err e, σ).

(** The window type and the boundary mode are names that SciPy knows. *)
Definition known_window {F} `{SciPy F} (window_type : string) : Prop :=
  window_type = "flat"%string ∨ is_Some (win_equiv window_type).
Definition known_mode (mode : string) : Prop :=
  mode ∈ ["nearest"; "wrap"; "reflect"; "grid-mirror"; "mirror"; "constant";
          "grid-wrap"; "grid-constant"]%string.

(** A SciPy to run the paths that do not read its numbers: the flat
    window, the checks, the shapes. It tabulates the windows of the boxcar
    family, which are all ones; the other windows, whose samples are
    cosines, are not tabulated, and the entries of a Savitzky-Golay row are
    the zeros that SciPy computes from finite data when [deriv] exceeds
    [polyorder]. No statement below rests on a value read from it. *)
Definition scipy_boxcar {F} `{Float64 F} : SciPy F := {|
  win_equiv := λ name,
    if bool_decide (name ∈ ["boxcar"; "box"; "ones"; "rect";
                             "rectangular"]%string)
    then Some (λ _ _, f_one) else None;
  savgol_entry := λ _ _ _ _ _ _, f_zero;
|}.
#[export] Instance scipy_b64 : SciPy float := scipy_boxcar.
#[export] Instance scipy_xr : SciPy xreal := scipy_boxcar.

(** A direct solver to run [msc] on [B64]: the normal equations of the two
    columns, solved by Cramer's rule in the arithmetic at hand. (LAPACK's
    answer differs from it by rounding; no theorem below depends on this
    solver.) *)
Definition normal_lstsq2 {F} `{Float64 F} (u v y : list F)
  : result (F * F) :=
  let dot p q := seq_sum (zip_with f_mul p q) in
  let det := f_sub (f_mul (dot u u) (dot v v)) (f_mul (dot u v) (dot u v)) in
  if f_is_finite det then
    Ok (f_div (f_sub (f_mul (dot u y) (dot v v)) (f_mul (dot u v) (dot v y)))
          det,
        f_div (f_sub (f_mul (dot u u) (dot v y)) (f_mul (dot u v) (dot u y)))
          det)
  else Err (LinAlgError "SVD did not converge in Linear Least Squares"%string).

#[export] Instance B64_normal : Lapack float :=
  {| lstsq2 := normal_lstsq2 |}.

(** Test stores: one array at location 1. *)
Definition store1 {F} (a : ndarray F) : heap F := {[ 1%positive := a ]}.
Definition sample_b64 : ndarray float :=
  NdArray 3 [[1; 2; 3]; [1; 1; 1]]%float.

(** Whether a message contains a decimal digit, as it must to name a
    length. *)
Definition is_digit (c : Ascii.ascii) : bool :=
  (48 <=? Ascii.nat_of_ascii c) && (Ascii.nat_of_ascii c <=? 57).
Fixpoint has_digit (msg : string) : bool :=
  match msg with
  | EmptyString => false
  | String c msg' => is_digit c || has_digit msg'
  end.

(** ** The statistics of the specification, on real numbers *)

(** The mean of a row. *)
Definition rmean (v : list R) : R := (rsum v / INR (length v))%R.
(** The population variance and standard deviation (divisor N). *)
Definition rvar (v : list R) : R :=
  (rsum ((λ x, (x - rmean v) * (x - rmean v)) <$> v) / INR (length v))%R.
Definition rstd (v : list R) : R := R_sqrt.sqrt (rvar v).
(** The standardised row [(row - mean(row)) / std(row)]. *)
Definition rstandardise (v : list R) : list R :=
  (λ x, (x - rmean v) / rstd v)%R <$> v.

(** ** The algorithm of [msc] in the words of the specification, on real
    numbers *)

(** Step 1: a row minus its own mean. *)
Definition rcenter (v : list R) : list R := (λ t, t - rmean v)%R <$> v.

(** Step 2: the column-wise mean of a matrix of [n] columns. *)
Definition rcolumn (m : list (list R)) (j : nat) : list R :=
  (λ r, default 0%R (r !! j)) <$> m.
Definition rcolumn_means (n : nat) (m : list (list R)) : list R :=
  (λ j, rmean (rcolumn m j)) <$> seq 0 n.

(** Step 3: ordinary least squares. The sum of the squared residuals of
    [y] against the line of slope [s] and intercept [i] over [x], and what
    it is for a line to fit best. *)
Definition sse (x y : list R) (s i : R) : R :=
  rsum (zip_with (λ xk yk, (yk - (s * xk + i)) * (yk - (s * xk + i)))%R x y).
Definition least_squares (x y : list R) (s i : R) : Prop :=
  ∀ s' i', (sse x y s i <= sse x y s' i')%R.

(** The matrix of a matrix of real numbers. *)
Definition fin_matrix (n : nat) (m : list (list R)) : ndarray xreal :=
  NdArray n ((λ r : list R, Fin <$> r) <$> m).

(** What [np.polyfit] returns on real data, as real numbers. *)
Definition rpolyfit (x y : list R) : R * R :=
  let ones := replicate (length x) 1%R in
  let scale0 := R_sqrt.sqrt (rdot x x) in
  let scale1 := R_sqrt.sqrt (rdot ones ones) in
  let c := rlstsq2 ((λ t, t / scale0)%R <$> x) ((λ t, t / scale1)%R <$> ones)
             y in
  (c.1 / scale0, c.2 / scale1)%R.

(** ** Row-wise changes of the input *)

(** The row [k * v + d]. *)
Definition affine (k d : R) (v : list R) : list R :=
  (λ t, k * t + d)%R <$> v.

(** The boundary modes that extend a row by its own samples. *)
Definition sample_mode (mode : string) : Prop :=
  mode ∈ ["nearest"; "wrap"; "reflect"; "grid-mirror"; "mirror";
          "grid-wrap"]%string.

(** * Proofs *)

(** ** Lemmas on results and on the store *)

Lemma res_map_total {A B} (f : A → B) (l : list A) :
  res_map (λ x, Ok (f x)) l = Ok (f <$> l).
Proof.
  induction l as [|x l IH]; simpl; [done|]. by rewrite IH.
Qed.

Lemma res_map_length {A B} (f : A → result B) (l : list A) (l' : list B) :
  res_map f l = Ok l' → length l' = length l.
Proof.
  revert l'. induction l as [|x l IH]; simpl; intros l' Hl.
  - by inversion Hl.
  - destruct (f x) as [y|]; simpl in Hl; [|done].
    destruct (res_map f l) as [ys|]; simpl in Hl; [|done].
    inversion Hl; subst. simpl. f_equal. by apply IH.
Qed.

Lemma res_map_lookup {A B} (f : A → result B) (l : list A) (l' : list B)
    (i : nat) (x : A) :
  res_map f l = Ok l' → l !! i = Some x →
  ∃ y, f x = Ok y ∧ l' !! i = Some y.
Proof.
  revert l' i. induction l as [|a l IH]; simpl; intros l' i Hl Hi; [done|].
  destruct (f a) as [y|] eqn:Hfa; simpl in Hl; [|done].
  destruct (res_map f l) as [ys|] eqn:Hys; simpl in Hl; [|done].
  inversion Hl; subst. destruct i as [|i]; simpl in *.
  - inversion Hi; subst. eauto.
  - eapply IH; eauto.
Qed.

Lemma res_map_ok {A B} (f : A → result B) (l : list A) :
  Forall (λ x, is_ok (f x) = true) l → ∃ l', res_map f l = Ok l'.
Proof.
  induction 1 as [|x l Hx Hl [l' IH]]; simpl; [eauto|].
  destruct (f x) as [y|]; [|done]. rewrite IH. simpl. eauto.
Qed.

Section Store.
Context {F : Type} `{Float64 F}.
Implicit Types (σ : heap F) (a b : ndarray F) (l : loc).

Lemma ndarray_eta a : NdArray (ncols a) (rows a) = a.
Proof. by destruct a. Qed.

Lemma fresh_lookup σ : σ !! fresh (dom σ) = None.
Proof. apply not_elem_of_dom, is_fresh. Qed.

Lemma fresh_ne σ l a : σ !! l = Some a → l ≠ fresh (dom σ).
Proof. intros Hl ->. by rewrite fresh_lookup in Hl. Qed.

Lemma deref_some σ l a : σ !! l = Some a → deref l σ = a.
Proof. unfold deref. by intros ->. Qed.

Lemma deref_insert σ l a : deref l (<[l := a]> σ) = a.
Proof. unfold deref. by rewrite lookup_insert_eq. Qed.

Lemma deref_insert_ne σ l l' a :
  l' ≠ l → deref l (<[l' := a]> σ) = deref l σ.
Proof. intros Hne. unfold deref. by rewrite lookup_insert_ne. Qed.

(** The loop over the store is the loop over the rows. *)
Lemma for_each_run_rows (g : list F → result (list F))
    (body : nat → py F unit) (inp out : loc)
    (src : option (list (list F))) (idx : list nat) :
  (∀ i σ, body i σ =
     match g (default [] (rows (deref inp σ) !! i)) with
     | Ok v =>
         (Ok tt,
          <[out := NdArray (ncols (deref out σ))
                     (<[i := v]> (rows (deref out σ)))]> σ)
     | Err e => (Err e, σ)
     end) →
  match src with
  | Some _ => inp ≠ out
  | None => inp = out
  end →
  ∀ σ b,
    σ !! out = Some b →
    default (rows b) src = rows (deref inp σ) →
    for_each idx body σ =
      ((run_rows g src idx (rows b)).1,
       <[out := NdArray (ncols b) (run_rows g src idx (rows b)).2]> σ).
Proof.
  intros Hbody Hsrc. induction idx as [|i idx IH]; intros σ b Hb Hrows.
  - simpl. unfold ret. by rewrite ndarray_eta, insert_id.
  - simpl. unfold mbind, py_bind, bind. rewrite Hbody.
    rewrite <- Hrows, (deref_some _ _ _ Hb).
    assert (default (rows b) src = default (rows b) src) as _ by done.
    replace (default (rows b) src !! i) with
      (default (rows b) src !! i) by done.
    destruct (g (default [] (default (rows b) src !! i))) as [v|e] eqn:Hg.
    + erewrite IH; [|apply lookup_insert_eq|].
      * simpl. by rewrite insert_insert_eq.
      * simpl. destruct src as [ra|]; simpl in *.
        -- by rewrite deref_insert_ne.
        -- subst inp. by rewrite deref_insert.
    + simpl. by rewrite ndarray_eta, insert_id.
Qed.
End Store.

(** ** Rows rewritten by a loop over [range(n)] *)

Section RunRows.
Context {F : Type}.
Implicit Types (g : list F → result (list F)) (acc ra : list (list F)).

(** In place: rows [k .. k+j) are replaced by their images, unless one of
    them raises. *)
Lemma run_rows_inplace g j : ∀ k acc,
  k + j ≤ length acc →
  match res_map g (take j (drop k acc)) with
  | Ok vs =>
      run_rows g None (seq k j) acc
      = (Ok tt, take k acc ++ vs ++ drop (k + j) acc)
  | Err e =>
      ∃ acc', run_rows g None (seq k j) acc = (Err e, acc')
              ∧ length acc' = length acc
  end.
Proof.
  induction j as [|j IH]; intros k acc Hlen; simpl.
  - rewrite Nat.add_0_r. by rewrite take_drop.
  - destruct (lookup_lt_is_Some_2 acc k) as [r Hr]; [lia|].
    rewrite (drop_S _ _ _ Hr). simpl. rewrite Hr. simpl.
    destruct (g r) as [v|e] eqn:Hg; simpl; [|eauto].
    specialize (IH (S k) (<[k := v]> acc)).
    rewrite length_insert in IH. specialize (IH ltac:(lia)).
    rewrite drop_insert_lt in IH by lia.
    destruct (res_map g (take j (drop (S k) acc))) as [vs|e]; simpl.
    + rewrite IH. f_equal.
      rewrite (take_S_r _ _ v) by (apply list_lookup_insert_eq; lia).
      rewrite take_insert_ge by lia.
      rewrite drop_insert_lt by lia.
      rewrite <- app_assoc. simpl.
        by replace (S (k + j)) with (k + S j) by lia.
    + destruct IH as (acc' & -> & Hl). eauto.
Qed.

(** From another array: the same, the rows being read in [ra]. *)
Lemma run_rows_from g ra j : ∀ k acc,
  k + j ≤ length acc →
  match res_map g (take j (drop k ra)) with
  | Ok vs =>
      length vs = j →
      run_rows g (Some ra) (seq k j) acc
      = (Ok tt, take k acc ++ vs ++ drop (k + j) acc)
  | Err e =>
      k + j ≤ length ra →
      ∃ acc', run_rows g (Some ra) (seq k j) acc = (Err e, acc')
              ∧ length acc' = length acc
  end.
Proof.
  induction j as [|j IH]; intros k acc Hlen; simpl.
  - rewrite Nat.add_0_r. intros _. by rewrite take_drop.
  - destruct (ra !! k) as [r|] eqn:Hr.
    + rewrite (drop_S _ _ _ Hr). simpl.
      destruct (g r) as [v|e] eqn:Hg; simpl; [|eauto].
      specialize (IH (S k) (<[k := v]> acc)).
      rewrite length_insert in IH. specialize (IH ltac:(lia)).
      destruct (res_map g (take j (drop (S k) ra))) as [vs|e]; simpl.
      * intros Hvs. rewrite IH by lia. f_equal.
        rewrite (take_S_r _ _ v) by (apply list_lookup_insert_eq; lia).
        rewrite take_insert_ge by lia.
        rewrite drop_insert_lt by lia.
        rewrite <- app_assoc. simpl.
        by replace (S (k + j)) with (k + S j) by lia.
      * intros Hra. destruct IH as (acc' & -> & Hl); [lia|]. eauto.
    + apply lookup_ge_None in Hr. rewrite drop_ge by lia.
      rewrite take_nil. simpl. intros Hvs. done.
Qed.

Lemma run_rows_inplace_all g acc :
  match res_map g acc with
  | Ok vs => run_rows g None (seq 0 (length acc)) acc = (Ok tt, vs)
  | Err e =>
      ∃ acc', run_rows g None (seq 0 (length acc)) acc = (Err e, acc')
              ∧ length acc' = length acc
  end.
Proof.
  pose proof (run_rows_inplace g (length acc) 0 acc ltac:(lia)) as Hr.
  rewrite drop_0, firstn_all in Hr.
  destruct (res_map g acc) as [vs|e]; [|done].
  rewrite Hr. simpl. by rewrite drop_all, app_nil_r.
Qed.

Lemma run_rows_from_all g ra acc :
  length acc = length ra →
  match res_map g ra with
  | Ok vs => run_rows g (Some ra) (seq 0 (length ra)) acc = (Ok tt, vs)
  | Err e =>
      ∃ acc', run_rows g (Some ra) (seq 0 (length ra)) acc = (Err e, acc')
              ∧ length acc' = length acc
  end.
Proof.
  intros Hlen.
  pose proof (run_rows_from g ra (length ra) 0 acc ltac:(lia)) as Hr.
  rewrite drop_0, firstn_all in Hr.
  destruct (res_map g ra) as [vs|e] eqn:Hg.
  - rewrite Hr by (by apply res_map_length in Hg). simpl.
    rewrite drop_ge by lia. by rewrite app_nil_r.
  - apply Hr. lia.
Qed.
End RunRows.

(** ** What each function does to the store *)

Ltac py_unfold :=
  unfold mbind, py_bind, mret, py_ret, bind, ret, lift, for_range,
    np_zeros_like, np_copy, new_array, shape0, load, np_mean_axis0.

Section Runs.
Context {F : Type} `{Float64 F} `{Lapack F} `{SciPy F}.
Implicit Types (σ : heap F) (a b : ndarray F) (l : loc).

(** [snv] allocates one array, fills it with the standardised rows and
    returns it. *)
Lemma snv_run σ l a :
  σ !! l = Some a →
  snv l σ = (Ok (fresh (dom σ)), <[fresh (dom σ) := snv_spec a]> σ).
Proof.
  intros Hl. pose proof (fresh_ne _ _ _ Hl) as Hne.
  unfold snv. py_unfold. cbn beta iota zeta.
  rewrite (deref_some _ _ _ Hl).
  rewrite deref_insert_ne, (deref_some _ _ _ Hl) by done.
  erewrite (for_each_run_rows (λ r, Ok (snv_row r)) _ l (fresh (dom σ))
              (Some (rows a)));
    [ | done | done | apply lookup_insert_eq
      | simpl; by rewrite deref_insert_ne, (deref_some _ _ _ Hl) ].
  pose proof (run_rows_from_all (λ r, Ok (snv_row r)) (rows a)
                (rows (zeros_like a))) as Hr.
  rewrite res_map_total in Hr. unfold nrows.
  rewrite Hr by (simpl; by rewrite length_replicate).
  simpl. by rewrite insert_insert_eq.
Qed.

(** Whether [convolve] raises does not depend on the signal. *)
Lemma nd_convolve_err (r r' w : list F) mode e :
  nd_convolve r w mode = Err e → nd_convolve r' w mode = Err e.
Proof.
  unfold nd_convolve. case_decide; [done|].
  destruct (extend_mode_to_code mode); simpl; [done|]. done.
Qed.

(** [smooth] writes the convolved rows into the array it was given and
    returns that array; when it raises, nothing has been written. *)
Lemma smooth_run σ l a filter_win window_type mode :
  σ !! l = Some a →
  smooth l filter_win window_type mode σ =
    match smooth_spec a filter_win window_type mode with
    | Ok a' => (Ok l, <[l := a']> σ)
    | Err e => (Err e, σ)
    end.
Proof.
  intros Hl. unfold smooth, smooth_spec, smooth_window. py_unfold.
  destruct (if decide (window_type = "flat"%string)
            then np_ones filter_win
            else get_window window_type filter_win) as [w|e]; [|done].
  cbn beta iota zeta. rewrite (deref_some _ _ _ Hl).
  simpl res_bind. set (w' := vdiv w (np_sum w)).
  erewrite (for_each_run_rows (λ r, nd_convolve r w' mode) _ l l None);
    [ | done | done | exact Hl | simpl; by rewrite (deref_some _ _ _ Hl) ].
  pose proof (run_rows_inplace_all (λ r, nd_convolve r w' mode) (rows a))
    as Hr.
  destruct (res_map (λ r, nd_convolve r w' mode) (rows a)) as [rs|e]
    eqn:Hmap.
  - unfold nrows. rewrite Hr. done.
  - unfold nrows. destruct (rows a) as [|r0 rs0] eqn:Hrows; [done|].
    simpl in Hmap.
    destruct (nd_convolve r0 w' mode) as [y|e0] eqn:Hc0.
    + simpl in Hmap.
      destruct (res_map (λ r, nd_convolve r w' mode) rs0) as [ys|e1]
        eqn:Hrest; simpl in Hmap; [done|]. inversion Hmap; subst e1.
      clear Hr Hmap. exfalso.
      assert (∃ r1, nd_convolve r1 w' mode = Err e) as [r1 Hr1].
      { clear Hrows Hc0. induction rs0 as [|r1 rs1 IH]; [done|].
        simpl in Hrest.
        destruct (nd_convolve r1 w' mode) as [y1|e1] eqn:Hc1;
          simpl in Hrest.
        - destruct (res_map (λ r, nd_convolve r w' mode) rs1);
            simpl in Hrest; [done|]. inversion Hrest; subst. by apply IH.
        - inversion Hrest; subst. eauto. }
      apply (nd_convolve_err r1 r0) in Hr1. congruence.
    + simpl in Hmap. inversion Hmap; subst e0.
      change (length (r0 :: rs0)) with (S (length rs0)).
      simpl seq. simpl run_rows. rewrite Hc0. simpl.
      rewrite <- Hrows. by rewrite ndarray_eta, insert_id.
Qed.

(** [savgol] checks its arguments, then allocates the filtered array;
    the array it was given is only read. *)
Lemma savgol_run σ l a filter_win poly_order deriv_order delta :
  σ !! l = Some a →
  savgol l filter_win poly_order deriv_order delta σ =
    match savgol_spec a filter_win poly_order deriv_order delta with
    | Ok a' => (Ok (fresh (dom σ)), <[fresh (dom σ) := a']> σ)
    | Err e => (Err e, σ)
    end.
Proof.
  intros Hl. unfold savgol, savgol_filter, savgol_spec. py_unfold.
  cbn beta iota zeta. rewrite (deref_some _ _ _ Hl).
  destruct (savgol_checks _ _ _ _); simpl; [|done].
  by destruct (res_map _ _).
Qed.

(** [msc] works on a copy: it centers the rows of the copy in place,
    allocates the output, and fills it row by row until a fit raises. *)
Lemma msc_run σ l a reference :
  σ !! l = Some a →
  let σ' := <[fresh (dom σ) := center_rows a]> σ in
  match msc_spec a reference with
  | Ok a' =>
      msc l reference σ = (Ok (fresh (dom σ')), <[fresh (dom σ') := a']> σ')
  | Err e =>
      ∃ b, msc l reference σ = (Err e, <[fresh (dom σ') := b]> σ')
  end.
Proof.
  intros Hl σ'. set (lc := fresh (dom σ)) in *.
  set (ld := fresh (dom σ')).
  set (ref := msc_reference a reference).
  assert (lc ≠ ld) as Hne.
  { apply (fresh_ne σ' lc (center_rows a)). apply lookup_insert_eq. }
  (* the copy *)
  assert (np_copy l σ = (Ok lc, <[lc := a]> σ)) as Hcopy.
  { unfold np_copy, new_array. by rewrite (deref_some _ _ _ Hl). }
  (* the first loop, in place on the copy *)
  assert (for_range (nrows a)
            (λ i, r ← get_row lc i; set_row lc i (vsub r (np_mean r)))
            (<[lc := a]> σ) = (Ok tt, σ')) as Hloop1.
  { unfold for_range.
    erewrite (for_each_run_rows (λ r, Ok (vsub r (np_mean r))) _ lc lc
                None);
      [ | done | done | apply lookup_insert_eq
        | simpl; by rewrite deref_insert ].
    pose proof (run_rows_inplace_all (λ r, Ok (vsub r (np_mean r)))
                  (rows a)) as Hr.
    rewrite res_map_total in Hr. unfold nrows. rewrite Hr. simpl.
    by rewrite insert_insert_eq. }
  (* the reference *)
  assert (match reference with
          | None => np_mean_axis0 lc
          | Some r => mret r
          end σ' = (Ok ref, σ')) as Href.
  { destruct reference; [done|]. unfold np_mean_axis0, σ'.
    by rewrite deref_insert. }
  (* the output array *)
  assert (np_zeros_like lc σ'
          = (Ok ld, <[ld := zeros_like (center_rows a)]> σ')) as Hzeros.
  { unfold np_zeros_like, new_array, σ'. by rewrite deref_insert. }
  (* the second loop, from the copy into the output *)
  set (rr := run_rows (msc_row ref) (Some (rows (center_rows a)))
               (seq 0 (nrows a)) (rows (zeros_like (center_rows a)))).
  assert (for_range (nrows a)
            (λ i, r ← get_row lc i; fit ← lift (polyfit ref r);
                  set_row ld i (vdiv (vsub r fit.2) fit.1))
            (<[ld := zeros_like (center_rows a)]> σ')
          = (rr.1, <[ld := NdArray (ncols a) rr.2]> σ')) as Hloop2.
  { unfold for_range.
    erewrite (for_each_run_rows (msc_row ref) _ lc ld
                (Some (rows (center_rows a))));
      [ | | done | apply lookup_insert_eq
        | simpl; rewrite deref_insert_ne by done;
          unfold σ'; by rewrite deref_insert ].
    - simpl. by rewrite insert_insert_eq.
    - intros i σ0. unfold msc_row, mbind, py_bind, bind, lift. cbn beta.
      unfold get_row at 1. cbn beta iota.
      by destruct (polyfit ref _). }
  assert (msc l reference σ
          = (match rr.1 with Ok _ => Ok ld | Err e => Err e end,
             <[ld := NdArray (ncols a) rr.2]> σ')) as ->.
  { unfold msc. unfold mbind, py_bind, mret, py_ret in *.
    unfold bind at 1. rewrite Hcopy. cbn beta iota.
    unfold bind at 1. unfold shape0 at 1. rewrite deref_insert.
    cbn beta iota.
    unfold bind at 1. rewrite Hloop1. cbn beta iota.
    unfold bind at 1. rewrite Href. cbn beta iota.
    unfold bind at 1. rewrite Hzeros. cbn beta iota.
    unfold bind at 1. rewrite Hloop2. by destruct rr.1. }
  pose proof (run_rows_from_all (msc_row ref) (rows (center_rows a))
                (rows (zeros_like (center_rows a)))) as Hr2.
  unfold msc_spec. fold ref.
  assert (length (rows (center_rows a)) = nrows a) as Hn
    by (simpl; by rewrite length_fmap).
  rewrite Hn in Hr2. fold rr in Hr2.
  destruct (res_map (msc_row ref) (rows (center_rows a))) as [rs|e].
  - rewrite Hr2 by (simpl; by rewrite length_replicate).
    done.
  - destruct Hr2 as (acc' & -> & _);
      [simpl; by rewrite length_replicate|].
    simpl. eauto.
Qed.
End Runs.

(** ** Shapes *)

Section Shapes.
Context {F : Type} `{Float64 F} `{Lapack F} `{SciPy F}.
Implicit Types (σ : heap F) (a b : ndarray F) (l : loc) (r v : list F).

Lemma length_vsub v c : length (vsub v c) = length v.
Proof. apply length_fmap. Qed.
Lemma length_vdiv v c : length (vdiv v c) = length v.
Proof. apply length_fmap. Qed.

Lemma length_snv_row r : length (snv_row r) = length r.
Proof. unfold snv_row. by rewrite length_vdiv, length_vsub. Qed.

Lemma length_msc_row ref r y : msc_row ref r = Ok y → length y = length r.
Proof.
  unfold msc_row. destruct (polyfit ref r) as [fit|]; simpl; [|done].
  intros [= <-]. by rewrite length_vdiv, length_vsub.
Qed.

Lemma length_nd_convolve r w mode y :
  nd_convolve r w mode = Ok y → length y = length r.
Proof.
  unfold nd_convolve. case_decide; [done|].
  destruct (extend_mode_to_code mode); simpl; [|done].
  intros [= <-]. by rewrite length_fmap, length_seq.
Qed.

(** Rows rewritten one for one, each keeping its length, keep the shape. *)
Lemma res_map_rect (g : list F → result (list F)) a rs :
  (∀ r y, g r = Ok y → length y = length r) →
  rect a → res_map g (rows a) = Ok rs →
  shape (NdArray (ncols a) rs) = shape a ∧ rect (NdArray (ncols a) rs).
Proof.
  intros Hg Ha Hrs. split.
  - unfold shape, nrows. simpl. by rewrite (res_map_length _ _ _ Hrs).
  - unfold rect in *. simpl. apply Forall_lookup. intros i y Hy.
    destruct (lookup_lt_is_Some_2 (rows a) i) as [r Hr].
    { rewrite <- (res_map_length _ _ _ Hrs). by eapply lookup_lt_Some. }
    destruct (res_map_lookup _ _ _ _ _ Hrs Hr) as (y' & Hgy & Hy').
    assert (y' = y) as -> by congruence.
    rewrite (Hg _ _ Hgy). by eapply (Forall_lookup_1 _ _ _ _ Ha).
Qed.

Lemma snv_spec_shape a :
  rect a → shape (snv_spec a) = shape a ∧ rect (snv_spec a).
Proof.
  intros Ha. unfold snv_spec.
  apply (res_map_rect (λ r, Ok (snv_row r))); [|done|apply res_map_total].
  intros r y [= <-]. apply length_snv_row.
Qed.

Lemma msc_spec_shape a reference a' :
  rect a → msc_spec a reference = Ok a' → shape a' = shape a ∧ rect a'.
Proof.
  intros Ha. unfold msc_spec.
  destruct (res_map _ _) as [rs|] eqn:Hrs; simpl; [|done].
  intros [= <-].
  assert (rect (center_rows a)) as Hc.
  { apply (res_map_rect (λ r, Ok (vsub r (np_mean r))) a);
      [|done|apply res_map_total].
    intros r y [= <-]. apply length_vsub. }
  destruct (res_map_rect _ (center_rows a) rs
              (length_msc_row (msc_reference a reference)) Hc Hrs)
    as [Hs Hr].
  split; [|done]. simpl in Hs. rewrite Hs. unfold shape, nrows. simpl.
  by rewrite length_fmap.
Qed.

Lemma smooth_spec_shape a filter_win window_type mode a' :
  rect a → smooth_spec a filter_win window_type mode = Ok a' →
  shape a' = shape a ∧ rect a'.
Proof.
  intros Ha. unfold smooth_spec.
  destruct (smooth_window _ _) as [w|]; simpl; [|done].
  destruct (res_map _ _) as [rs|] eqn:Hrs; simpl; [|done].
  intros [= <-]. eapply res_map_rect; [|done|exact Hrs].
  intros r y. apply length_nd_convolve.
Qed.

Lemma length_savgol_row filter_win poly_order deriv_order delta
    (r y : list F) :
  savgol_row filter_win poly_order deriv_order delta r = Ok y →
  length y = length r.
Proof. intros [= <-]. apply length_imap. Qed.

Lemma savgol_spec_shape a filter_win poly_order deriv_order delta a' :
  rect a →
  savgol_spec a filter_win poly_order deriv_order delta = Ok a' →
  shape a' = shape a ∧ rect a'.
Proof.
  intros Ha. unfold savgol_spec.
  destruct (savgol_checks _ _ _ _ _); simpl; [|done].
  destruct (res_map _ _) as [rs|] eqn:Hrs; simpl; [|done].
  intros [= <-]. eapply res_map_rect; [|done|exact Hrs].
  intros r y. apply length_savgol_row.
Qed.

(** When [smooth] has its window, a known mode and a window that is not
    empty, every row convolves. *)
Lemma extend_mode_known mode :
  known_mode mode → ∃ m, extend_mode_to_code mode = Ok m.
Proof.
  unfold known_mode. rewrite !elem_of_cons, elem_of_nil.
  intros Hm. destruct_or!; try done; subst mode; by eexists.
Qed.

Lemma extend_mode_unknown mode :
  ¬ known_mode mode →
  extend_mode_to_code mode
  = Err (RuntimeError "boundary mode not supported").
Proof.
  unfold known_mode, extend_mode_to_code. rewrite !elem_of_cons.
  intros Hm.
  repeat (rewrite decide_False; [|intros ?; apply Hm; tauto]). done.
Qed.

Lemma smooth_window_flat filter_win :
  (0 ≤ filter_win)%Z →
  ∃ w, smooth_window filter_win "flat" = Ok w
       ∧ length w = Z.to_nat filter_win.
Proof.
  intros Hf. unfold smooth_window, np_ones.
  rewrite decide_True by done. rewrite decide_False by lia.
  simpl. eexists. split; [done|].
  by rewrite length_vdiv, length_replicate.
Qed.

Lemma smooth_window_ok filter_win window_type :
  (1 ≤ filter_win)%Z → known_window window_type →
  ∃ w, smooth_window filter_win window_type = Ok w
       ∧ length w = Z.to_nat filter_win.
Proof.
  intros Hf Hk. unfold smooth_window, get_window.
  case_decide as Hflat.
  - subst. apply smooth_window_flat. lia.
  - destruct Hk as [?|[w Hw]]; [done|]. rewrite Hw.
    rewrite decide_False by lia. simpl. eexists. split; [done|].
    by rewrite length_vdiv, length_fmap, length_seq.
Qed.

Lemma smooth_spec_ok a filter_win window_type mode :
  (1 ≤ filter_win)%Z → known_window window_type → known_mode mode →
  ∃ a', smooth_spec a filter_win window_type mode = Ok a'.
Proof.
  intros Hf Hk Hm. unfold smooth_spec.
  destruct (smooth_window_ok filter_win window_type) as (w & -> & Hw);
    [lia|done|]. simpl.
  destruct (extend_mode_known _ Hm) as [m Hmode].
  destruct (res_map_ok (λ r, nd_convolve r w mode) (rows a)) as [rs ->].
  { apply Forall_forall. intros r _. unfold nd_convolve.
    rewrite decide_False by lia. by rewrite Hmode. }
  simpl. eauto.
Qed.
End Shapes.

(** ** Shape and frame of the four transforms *)

Section Transforms.
Context {F : Type} `{Float64 F} `{Lapack F} `{SciPy F}.
Implicit Types (σ : heap F) (a b : ndarray F) (l : loc).

Lemma savgol_checks_ok filter_win poly_order deriv_order size n_rows :
  (0 ≤ poly_order < filter_win)%Z → (0 ≤ deriv_order)%Z →
  (filter_win ≤ Z.of_nat size)%Z → n_rows ≠ 0 →
  savgol_checks filter_win poly_order deriv_order size n_rows = Ok tt.
Proof.
  intros Hp Hd Hs Hn. unfold savgol_checks.
  by rewrite !decide_False by lia.
Qed.

Lemma savgol_row_ok filter_win poly_order deriv_order delta
    (rs : list (list F)) :
  Forall (λ r, is_ok (savgol_row filter_win poly_order deriv_order delta r)
               = true) rs.
Proof. by apply Forall_forall. Qed.

Lemma res_map_take {A B} (g : A → result B) (xs : list A) ys k :
  res_map g xs = Ok ys → res_map g (take k xs) = Ok (take k ys).
Proof.
  revert ys k. induction xs as [|x xs IH]; intros ys k; simpl.
  - intros [= <-]. by rewrite !take_nil.
  - destruct (g x) as [y|] eqn:Hy; simpl; [|done].
    destruct (res_map g xs) as [ys'|]; simpl; [|done].
    intros [= <-]. destruct k; simpl; [done|].
    by rewrite Hy, (IH ys' k).
Qed.

Lemma preserves_fresh σ l b :
  preserves σ (Ok (fresh (dom σ)), <[fresh (dom σ) := b]> σ).
Proof.
  intros l0 a0 Hl0. pose proof (fresh_ne _ _ _ Hl0). simpl.
  rewrite lookup_insert_ne by done. split; [done|congruence].
Qed.

Lemma preserves_err σ e : preserves σ (Err e, σ).
Proof. intros l0 a0 Hl0. simpl. done. Qed.

(** [msc] only writes to the two arrays it allocates. *)
Lemma msc_preserves σ l a reference :
  σ !! l = Some a → preserves σ (msc l reference σ).
Proof.
  intros Hl. pose proof (msc_run σ l a reference Hl) as Hmsc.
  cbn zeta in Hmsc.
  set (σ' := <[fresh (dom σ) := center_rows a]> σ) in *.
  assert (∀ b r, (msc l reference σ) = (r, <[fresh (dom σ') := b]> σ') →
                 (r = Ok (fresh (dom σ')) ∨ ∃ e, r = Err e) →
                 preserves σ (msc l reference σ)) as Hpres.
  { intros b r -> Hr l0 a0 Hl0. simpl.
    assert (σ' !! l0 = Some a0) as Hl0'.
    { unfold σ'. rewrite lookup_insert_ne; [done|].
      intros <-. by rewrite fresh_lookup in Hl0. }
    rewrite lookup_insert_ne
      by (intros <-; by rewrite fresh_lookup in Hl0').
    split; [done|]. destruct Hr as [->|[e ->]]; [|done].
    intros [= <-]. by rewrite fresh_lookup in Hl0'. }
  destruct (msc_spec a reference) as [a'|e].
  - eapply Hpres; [exact Hmsc|by left].
  - destruct Hmsc as [b Hb]. eapply Hpres; [exact Hb|right; eauto].
Qed.

(** The centered rows are in the copy, the first array [msc] allocates. *)
Lemma msc_copy σ l a reference :
  σ !! l = Some a →
  (msc l reference σ).2 !! fresh (dom σ) = Some (center_rows a).
Proof.
  intros Hl. pose proof (msc_run σ l a reference Hl) as Hmsc.
  cbn zeta in Hmsc.
  set (σ' := <[fresh (dom σ) := center_rows a]> σ) in *.
  assert (fresh (dom σ) ≠ fresh (dom σ')) as Hne.
  { apply (fresh_ne σ' _ (center_rows a)). apply lookup_insert_eq. }
  assert (∀ b, <[fresh (dom σ') := b]> σ' !! fresh (dom σ)
               = Some (center_rows a)) as Hcopy.
  { intros b. rewrite lookup_insert_ne by done. apply lookup_insert_eq. }
  destruct (msc_spec a reference) as [a'|e].
  - rewrite Hmsc. apply Hcopy.
  - destruct Hmsc as [b ->]. apply Hcopy.
Qed.

(** What [msc] returns or raises is what [msc_spec] does. *)
Lemma msc_outcome σ l a reference :
  σ !! l = Some a →
  match msc_spec a reference with
  | Ok a' => returns (msc l reference σ) (λ b, b = a')
  | Err e => (msc l reference σ).1 = Err e
  end.
Proof.
  intros Hl. pose proof (msc_run σ l a reference Hl) as Hmsc.
  cbn zeta in Hmsc. destruct (msc_spec a reference) as [a'|e].
  - rewrite Hmsc. eexists _, a'. simpl. by rewrite lookup_insert_eq.
  - by destruct Hmsc as [b ->].
Qed.
End Transforms.

(** C3. Whenever [msc], [snv], [smooth] or [savgol] returns, the array it
    returns has the shape [(n_samples, n_channels)] of its input and is
    rectangular. And they return: [snv] always, [msc] when every fit
    succeeds, [smooth] for a window length of at least 1 and known names,
    [savgol] on a matrix with rows when its arguments pass SciPy's
    checks. *)
Theorem shape_preserved {F} `{Float64 F} `{Lapack F} `{SciPy F}
    (σ : heap F) (l : loc) (a : ndarray F) (reference : option (list F))
    (smooth_win : Z) (window_type mode : string)
    (filter_win poly_order deriv_order : Z) (delta : F) :
  σ !! l = Some a →
  rect a →
  let same a' := shape a' = shape a ∧ rect a' in
  if_returns (msc l reference σ) same
  ∧ (Forall (λ c, is_ok (polyfit (msc_reference a reference) c) = true)
       (rows (center_rows a)) →
     returns (msc l reference σ) same)
  ∧ returns (snv l σ) same
  ∧ if_returns (smooth l smooth_win window_type mode σ) same
  ∧ ((1 ≤ smooth_win)%Z → known_window window_type → known_mode mode →
     returns (smooth l smooth_win window_type mode σ) same)
  ∧ if_returns (savgol l filter_win poly_order deriv_order delta σ) same
  ∧ ((0 ≤ poly_order < filter_win)%Z → (0 ≤ deriv_order)%Z →
     (filter_win ≤ Z.of_nat (ncols a))%Z → rows a ≠ [] →
     returns (savgol l filter_win poly_order deriv_order delta σ) same).
Proof.
  intros Hl Ha same.
  pose proof (msc_run σ l a reference Hl) as Hmsc.
  pose proof (smooth_run σ l a smooth_win window_type mode Hl) as Hsm.
  pose proof (savgol_run σ l a filter_win poly_order deriv_order delta Hl)
    as Hsg.
  cbn zeta in Hmsc.
  split_and!.
  - intros l'. destruct (msc_spec a reference) as [a'|e] eqn:Hspec.
    + rewrite Hmsc. simpl. intros [= <-]. exists a'.
      rewrite lookup_insert_eq. split; [done|].
      by eapply msc_spec_shape.
    + destruct Hmsc as [b ->]. done.
  - intros Hfit.
    assert (∃ a', msc_spec a reference = Ok a') as [a' Hspec].
    { unfold msc_spec.
      destruct (res_map_ok (msc_row (msc_reference a reference))
                  (rows (center_rows a))) as [rs ->]; [|simpl; eauto].
      eapply Forall_impl; [exact Hfit|]. intros c Hc. cbv beta in Hc.
      unfold msc_row. by destruct (polyfit _ c). }
    rewrite Hspec in Hmsc. rewrite Hmsc. eexists _, a'. simpl.
    rewrite lookup_insert_eq. split_and!; try done.
    by eapply msc_spec_shape.
  - rewrite (snv_run _ _ _ Hl). exists (fresh (dom σ)), (snv_spec a). simpl.
    rewrite lookup_insert_eq. split_and!; try done.
    by apply snv_spec_shape.
  - intros l'. destruct (smooth_spec a _ _ _) as [a'|e] eqn:Hspec;
      rewrite Hsm; simpl; [|done].
    intros [= <-]. exists a'. rewrite lookup_insert_eq. split; [done|].
    by eapply smooth_spec_shape.
  - intros Hw Hk Hm.
    destruct (smooth_spec_ok a smooth_win window_type mode Hw Hk Hm)
      as [a' Hspec].
    rewrite Hspec in Hsm. rewrite Hsm. exists l, a'. simpl.
    rewrite lookup_insert_eq. split_and!; try done.
    by eapply smooth_spec_shape.
  - intros l'. destruct (savgol_spec a _ _ _ _) as [a'|e] eqn:Hspec;
      rewrite Hsg; simpl; [|done].
    intros [= <-]. exists a'. rewrite lookup_insert_eq. split; [done|].
    by eapply savgol_spec_shape.
  - intros Hp Hd Hs Hrows.
    destruct (res_map_ok _ _
                (savgol_row_ok filter_win poly_order deriv_order delta
                   (rows a))) as [rs Hrs].
    assert (savgol_spec a filter_win poly_order deriv_order delta
            = Ok (NdArray (ncols a) rs)) as Hspec.
    { unfold savgol_spec. rewrite savgol_checks_ok; [|done..|].
      - simpl. by rewrite Hrs.
      - unfold nrows. by destruct (rows a). }
    rewrite Hspec in Hsg. rewrite Hsg.
    exists (fresh (dom σ)), (NdArray (ncols a) rs). simpl.
    rewrite lookup_insert_eq. split_and!; try done.
    by eapply savgol_spec_shape.
Qed.

Lemma shape_preserved_witness :
  let σ := store1 sample_b64 in
  let same a' := shape a' = shape sample_b64 ∧ rect a' in
  if_returns (msc 1%positive None σ) same
  ∧ returns (snv 1%positive σ) same
  ∧ returns (smooth 1%positive 3 "flat" "reflect" σ) same
  ∧ returns (savgol 1%positive 3 1 0 1%float σ) same.
Proof.
  destruct (shape_preserved (store1 sample_b64) 1%positive sample_b64 None
              3 "flat" "reflect" 3 1 0 1%float)
    as (Hmsc & _ & Hsnv & _ & Hsmooth & _ & Hsavgol).
  - reflexivity.
  - repeat constructor.
  - split_and!; [exact Hmsc|exact Hsnv|apply Hsmooth|apply Hsavgol].
    + lia.
    + by left.
    + unfold known_mode. rewrite !elem_of_cons. tauto.
    + lia.
    + lia.
    + simpl. lia.
    + done.
Defined.

(** C4. [msc], [snv] and [savgol] leave every array of the caller as it
    was and never return the array they were given: [msc] works on a copy
    (the centered rows are in the array it allocates first), [snv] and
    [savgol] write to a new array only. [smooth] returns the very
    array it was given, holding the convolved rows; its loop writes them
    into that array one row after the other (after [k] rounds the first [k]
    rows are convolved and the others are as the caller left them). *)
Theorem only_smooth_writes_its_input {F} `{Float64 F} `{Lapack F} `{SciPy F}
    (σ : heap F) (l : loc) (a : ndarray F) (reference : option (list F))
    (smooth_win : Z) (window_type mode : string)
    (filter_win poly_order deriv_order : Z) (delta : F) :
  σ !! l = Some a →
  preserves σ (msc l reference σ)
  ∧ (msc l reference σ).2 !! fresh (dom σ) = Some (center_rows a)
  ∧ preserves σ (snv l σ)
  ∧ preserves σ (savgol l filter_win poly_order deriv_order delta σ)
  ∧ match smooth_spec a smooth_win window_type mode with
    | Ok a' =>
        smooth l smooth_win window_type mode σ = (Ok l, <[l := a']> σ)
        ∧ ∀ w k, smooth_window smooth_win window_type = Ok w →
                 k ≤ nrows a →
                 for_range k (smooth_row l w mode) σ
                 = (Ok tt,
                    <[l := NdArray (ncols a)
                             (take k (rows a') ++ drop k (rows a))]> σ)
    | Err e => smooth l smooth_win window_type mode σ = (Err e, σ)
    end.
Proof.
  intros Hl.
  pose proof (smooth_run σ l a smooth_win window_type mode Hl) as Hsm.
  pose proof (savgol_run σ l a filter_win poly_order deriv_order delta Hl)
    as Hsg.
  split_and!.
  - by eapply msc_preserves.
  - by apply msc_copy.
  - rewrite (snv_run _ _ _ Hl). by apply preserves_fresh.
  - destruct (savgol_spec a _ _ _ _); rewrite Hsg.
    + by apply preserves_fresh.
    + apply preserves_err.
  - destruct (smooth_spec a smooth_win window_type mode) as [a'|e] eqn:Hspec;
      [|done].
    split; [done|]. intros w k Hw Hk. unfold smooth_spec in Hspec.
    rewrite Hw in Hspec. simpl in Hspec.
    destruct (res_map (λ r, nd_convolve r w mode) (rows a)) as [rs|] eqn:Hrs;
      simpl in Hspec; [|done].
    injection Hspec as <-. simpl. unfold for_range.
    erewrite (for_each_run_rows (λ r, nd_convolve r w mode) _ l l None);
      [ | done | done | exact Hl | simpl; by rewrite (deref_some _ _ _ Hl) ].
    pose proof (run_rows_inplace (λ r, nd_convolve r w mode) k 0 (rows a))
      as Hr.
    rewrite drop_0, (res_map_take _ _ _ k Hrs) in Hr.
    rewrite Hr by (unfold nrows in Hk; lia). done.
Qed.

Lemma only_smooth_writes_its_input_witness :
  let σ := store1 sample_b64 in
  preserves σ (msc 1%positive None σ)
  ∧ preserves σ (snv 1%positive σ)
  ∧ preserves σ (savgol 1%positive 3 1 0 1%float σ)
  ∧ smooth 1%positive 3 "flat" "reflect" σ
    = (Ok 1%positive,
       store1 (NdArray 3 [[0x1.5555555555555p+0; 2; 0x1.5555555555555p+1];
                          [1; 1; 1]]%float)).
Proof.
  destruct (only_smooth_writes_its_input (store1 sample_b64) 1%positive
              sample_b64 None 3 "flat" "reflect" 3 1 0 1%float)
    as (Hmsc & _ & Hsnv & Hsavgol & Hsmooth).
  - reflexivity.
  - split_and!; [exact Hmsc|exact Hsnv|exact Hsavgol|].
    vm_compute. reflexivity.
Defined.

(** ** Configuration errors *)




(** C7, as stated, fails: a flat window of 5 on rows of 3 channels raises
    nothing; the rows are extended by reflection and smoothed. *)
Lemma smooth_window_longer_than_row_returns :
  smooth 1%positive 5 "flat" "reflect"
    (store1 (NdArray 3 [[1; 2; 3]]%float))
  = (Ok 1%positive,
     store1 (NdArray 3 [[0x1.ccccccccccccep+0; 2;
                         0x1.199999999999ap+1]]%float)).
Proof. vm_compute. reflexivity. Qed.

(** C7, amended. [smooth] has no check of its own. It raises
    [ValueError] when the window type is neither "flat" nor a name SciPy
    has a window for, when [filter_win] is negative, and when [filter_win]
    is 0 with a window other than "flat"; for a matrix with at least one
    row it raises [RuntimeError] when [filter_win] is 0 with the flat
    window and when the mode is not a name SciPy knows. In each case
    nothing is returned and the matrix is untouched. A [filter_win] above
    the number of channels is no error: for every [filter_win] of at least
    1 and known names the smoothed matrix, of the same shape, is
    returned. *)
Theorem smooth_config_errors {F} `{Float64 F} `{SciPy F}
    (σ : heap F) (l : loc) (a : ndarray F)
    (filter_win : Z) (window_type mode : string) :
  σ !! l = Some a →
  let call := smooth l filter_win window_type mode σ in
  (¬ known_window window_type → ∃ msg, raises call (ValueError msg) σ)
  ∧ ((filter_win < 0)%Z ∨ (filter_win = 0%Z ∧ window_type ≠ "flat"%string) →
     ∃ msg, raises call (ValueError msg) σ)
  ∧ (rows a ≠ [] →
     (filter_win = 0%Z ∧ window_type = "flat"%string)
     ∨ ((1 ≤ filter_win)%Z ∧ known_window window_type ∧ ¬ known_mode mode) →
     ∃ msg, raises call (RuntimeError msg) σ)
  ∧ ((1 ≤ filter_win)%Z → known_window window_type → known_mode mode →
     ∃ a', call = (Ok l, <[l := a']> σ) ∧ shape a' = shape a).
Proof.
  intros Hl call. unfold call, raises.
  rewrite (smooth_run σ l a _ _ _ Hl). split_and!.
  - intros Hk. unfold smooth_spec, smooth_window, get_window.
    rewrite decide_False by (intros ->; apply Hk; by left).
    destruct (win_equiv window_type) as [w|] eqn:Hw; [|simpl; eauto].
    exfalso. apply Hk. right. by rewrite Hw.
  - intros Hf. unfold smooth_spec, smooth_window, np_ones, get_window.
    case_decide as Hflat.
    + rewrite decide_True by (destruct Hf as [?|[_ ?]]; [lia|done]).
      simpl. eauto.
    + destruct (win_equiv window_type); simpl; [|eauto].
      rewrite decide_True by lia. simpl. eauto.
  - intros Hrows Hcase. unfold smooth_spec.
    destruct (rows a) as [|r rs] eqn:Hr; [done|].
    destruct Hcase as [[-> ->]|(Hf & Hk & Hm)].
    + destruct (smooth_window_flat 0) as (w & -> & Hw); [lia|]. simpl.
      unfold nd_convolve at 1. rewrite decide_True by done. simpl. eauto.
    + destruct (smooth_window_ok filter_win window_type) as (w & -> & Hw);
        [lia|done|]. simpl.
      unfold nd_convolve at 1. rewrite decide_False by lia.
      rewrite (extend_mode_unknown _ Hm). simpl. eauto.
  - intros Hf Hk Hm.
    destruct (smooth_spec_ok a filter_win window_type mode Hf Hk Hm)
      as [a' Hspec].
    rewrite Hspec. exists a'. split; [done|].
    unfold smooth_spec in Hspec.
    destruct (smooth_window _ _) as [w|]; simpl in Hspec; [|done].
    destruct (res_map _ _) as [rs|] eqn:Hrs; simpl in Hspec; [|done].
    injection Hspec as <-. unfold shape, nrows. simpl.
    by rewrite (res_map_length _ _ _ Hrs).
Qed.

Lemma smooth_config_errors_witness :
  let σ := store1 (NdArray 3 [[1; 2; 3]]%float) in
  (∃ msg, raises (smooth 1%positive 3 "no such window" "reflect" σ)
            (ValueError msg) σ)
  ∧ (∃ msg, raises (smooth 1%positive (-1) "flat" "reflect" σ)
              (ValueError msg) σ)
  ∧ (∃ msg, raises (smooth 1%positive 0 "flat" "reflect" σ)
              (RuntimeError msg) σ)
  ∧ (∃ msg, raises (smooth 1%positive 3 "flat" "periodic" σ)
              (RuntimeError msg) σ)
  ∧ ∃ a', smooth 1%positive 5 "flat" "reflect" σ
          = (Ok 1%positive, <[1%positive := a']> σ)
          ∧ shape a' = (1, 3).
Proof.
  intros σ.
  pose proof (λ w t m,
    smooth_config_errors σ 1%positive _ w t m eq_refl) as Hs.
  cbn zeta in Hs. split_and!.
  - destruct (Hs 3%Z "no such window"%string "reflect"%string)
      as (Hname & _). apply Hname. intros [?|[w Hw]]; done.
  - destruct (Hs (-1)%Z "flat"%string "reflect"%string) as (_ & Hneg & _).
    apply Hneg. left. lia.
  - destruct (Hs 0%Z "flat"%string "reflect"%string) as (_ & _ & Hrun & _).
    apply Hrun; [done|by left].
  - destruct (Hs 3%Z "flat"%string "periodic"%string)
      as (_ & _ & Hrun & _).
    apply Hrun; [done|]. right. split_and!; [lia|by left|].
    unfold known_mode. rewrite !elem_of_cons.
    intros Hm. destruct_or!; try done. by apply elem_of_nil in Hm.
  - destruct (Hs 5%Z "flat"%string "reflect"%string) as (_ & _ & _ & Hret).
    apply Hret; [lia|by left|].
    unfold known_mode. rewrite !elem_of_cons. tauto.
Defined.

(** C8, as stated, fails: the exception raised for a reference of 2 values
    against rows of 3 channels is NumPy's [TypeError] from [polyfit], whose
    message names no length; and on a matrix without rows nothing is
    raised at all. *)
Lemma msc_length_mismatch_message_names_no_length :
  (msc 1%positive (Some [1; 2]%float)
     (store1 (NdArray 3 [[1; 2; 3]]%float))).1
  = Err (TypeError "expected x and y to have same length")
  ∧ has_digit "expected x and y to have same length" = false
  ∧ (msc 1%positive (Some [1; 2]%float) (store1 (NdArray 3 []))).1
    = Ok 3%positive.
Proof. split_and!; vm_compute; reflexivity. Qed.

(** C8, amended. [msc] has no check of its own on the reference. With a
    reference whose length is not the number of channels, the first
    [np.polyfit] raises [TypeError] ("expected x and y to have same
    length", or "expected non-empty vector for x" for an empty reference:
    neither names a length), no matrix is returned and the caller's arrays
    are untouched; on a matrix without rows there is no fit and the empty
    result is returned. *)
Theorem msc_reference_length_mismatch {F} `{Float64 F} `{Lapack F}
    (σ : heap F) (l : loc) (a : ndarray F) (ref : list F) :
  σ !! l = Some a →
  rect a →
  length ref ≠ ncols a →
  let call := msc l (Some ref) σ in
  (rows a ≠ [] →
   call.1 = Err (TypeError
                   (if decide (length ref = 0)
                    then "expected non-empty vector for x"
                    else "expected x and y to have same length")))
  ∧ (rows a = [] → returns call (λ a', a' = NdArray (ncols a) []))
  ∧ preserves σ call.
Proof.
  intros Hl Ha Hlen call. unfold call.
  pose proof (msc_outcome σ l a (Some ref) Hl) as Hout.
  split_and!; [| |by eapply msc_preserves].
  - intros Hrows. unfold msc_spec in Hout.
    destruct (rows a) as [|r rs] eqn:Hr; [done|]. simpl in Hout.
    rewrite Hr in Hout. simpl in Hout.
    assert (length r = ncols a) as Hlr.
    { unfold rect in Ha. rewrite Hr in Ha. by inversion Ha. }
    unfold msc_row at 1, polyfit in Hout.
    case_decide as Hempty; [exact Hout|].
    rewrite decide_False in Hout; [exact Hout|].
    rewrite length_vsub. lia.
  - intros Hrows. unfold msc_spec in Hout. simpl in Hout.
    rewrite Hrows in Hout. exact Hout.
Qed.

Lemma msc_reference_length_mismatch_witness :
  let call := msc 1%positive (Some [Fin 1; Fin 2])
                (store1 (NdArray 3 [[Fin 1; Fin 2; Fin 3]])) in
  call.1 = Err (TypeError "expected x and y to have same length")
  ∧ preserves (store1 (NdArray 3 [[Fin 1; Fin 2; Fin 3]])) call.
Proof.
  destruct (msc_reference_length_mismatch
              (store1 (NdArray 3 [[Fin 1; Fin 2; Fin 3]])) 1%positive
              (NdArray 3 [[Fin 1; Fin 2; Fin 3]]) [Fin 1; Fin 2])
    as (Herr & _ & Hpres).
  - reflexivity.
  - repeat constructor.
  - simpl. lia.
  - split; [|exact Hpres]. by apply Herr.
Defined.

(** ** The recursion of the pairwise sum

    The recursion of [pairwise_sum] is NumPy's, on the length of the
    vector; the count that carries it in [pairwise_sum_rec] never runs
    out. *)
Section Summation.
Context {F : Type} `{Float64 F}.

Lemma pairwise_sum_rec_fuel (f1 : nat) : ∀ (f2 : nat) (a : list F),
  length a ≤ f1 → length a ≤ f2 →
  pairwise_sum_rec f1 a = pairwise_sum_rec f2 a.
Proof.
  induction f1 as [|f1 IH]; intros f2 a H1 H2.
  - destruct a; [|simpl in H1; lia]. by destruct f2.
  - cbn [pairwise_sum_rec]. destruct (decide (length a ≤ 128)) as [Hs|Hs].
    + destruct f2; cbn [pairwise_sum_rec]; [done|].
      by rewrite decide_True.
    + destruct f2 as [|f2]; [lia|]. cbn [pairwise_sum_rec].
      rewrite decide_False by done.
      assert (1 ≤ length a / 2 - (length a / 2) mod 8 < length a) as Hn2.
      { pose proof (Nat.div_mod_eq (length a) 2).
        pose proof (Nat.mod_upper_bound (length a) 2).
        pose proof (Nat.mod_upper_bound (length a / 2) 8). lia. }
      f_equal; apply IH; rewrite ?length_take, ?length_drop; lia.
Qed.

Lemma pairwise_sum_unfold (a : list F) :
  pairwise_sum a
  = if decide (length a ≤ 128) then block_sum a
    else f_add
           (pairwise_sum
              (take (length a / 2 - (length a / 2) mod 8) a))
           (pairwise_sum
              (drop (length a / 2 - (length a / 2) mod 8) a)).
Proof.
  unfold pairwise_sum at 1. destruct (length a) as [|n] eqn:Hn.
  - by rewrite decide_True by lia.
  - cbn [pairwise_sum_rec]. rewrite Hn.
    destruct (decide (S n ≤ 128)); [done|].
    assert (1 ≤ S n / 2 - (S n / 2) mod 8 < S n) as Hn2.
    { pose proof (Nat.div_mod_eq (S n) 2).
      pose proof (Nat.mod_upper_bound (S n) 2).
      pose proof (Nat.mod_upper_bound (S n / 2) 8). lia. }
    unfold pairwise_sum.
    f_equal; apply pairwise_sum_rec_fuel;
      rewrite ?length_take, ?length_drop; lia.
Qed.
End Summation.

(** ** Exact arithmetic: finite rows compute as real numbers *)

Section Exact.
Local Open Scope R_scope.
Implicit Types (v x y : list R) (c : R).

Lemma rsum_nil : rsum [] = 0.
Proof. done. Qed.

Lemma rsum_cons c v : rsum (c :: v) = c + rsum v.
Proof. done. Qed.

Ltac rsum_simpl :=
  rewrite ?fmap_nil, ?fmap_cons, ?rsum_nil, ?rsum_cons.

Lemma rsum_scale (f : R → R) c v :
  rsum ((λ t, c * f t) <$> v) = c * rsum (f <$> v).
Proof. induction v as [|t v IH]; rsum_simpl; [lra|]. rewrite IH. lra. Qed.

Lemma rsum_plus (f g : R → R) v :
  rsum ((λ t, f t + g t) <$> v) = rsum (f <$> v) + rsum (g <$> v).
Proof. induction v as [|t v IH]; rsum_simpl; [lra|]. rewrite IH. lra. Qed.

Lemma rsum_const c v : rsum ((λ _, c) <$> v) = INR (length v) * c.
Proof.
  induction v as [|t v IH]; rsum_simpl; [simpl; lra|]. rewrite IH.
  change (length (t :: v)) with (S (length v)). rewrite S_INR. lra.
Qed.

Lemma rsum_id v : rsum ((λ t, t) <$> v) = rsum v.
Proof. by rewrite list_fmap_id. Qed.

Lemma rsum_ext (f g : R → R) v :
  (∀ t, t ∈ v → f t = g t) → rsum (f <$> v) = rsum (g <$> v).
Proof.
  induction v as [|t v IH]; intros Hfg; rsum_simpl; [done|].
  rewrite Hfg by left. rewrite IH; [done|]. intros t' Ht'. apply Hfg.
  by right.
Qed.

Lemma rsum_squares_nonneg (f : R → R) v : 0 <= rsum ((λ t, f t * f t) <$> v).
Proof. induction v as [|t v IH]; rsum_simpl; [lra|]. nra. Qed.

Lemma rsum_squares_zero (f : R → R) v :
  rsum ((λ t, f t * f t) <$> v) = 0 → ∀ t, t ∈ v → f t = 0.
Proof.
  induction v as [|t v IH]; intros Hs t' Ht'; [by apply elem_of_nil in Ht'|].
  rewrite fmap_cons, rsum_cons in Hs. pose proof (rsum_squares_nonneg f v).
  apply elem_of_cons in Ht' as [->|Ht'].
  - nra.
  - apply IH; [nra|done].
Qed.

Lemma INR_length_pos v : v ≠ [] → 0 < INR (length v).
Proof.
  destruct v; [done|]. intros _. apply lt_0_INR.
  change (0 < length (r :: v))%nat. simpl. lia.
Qed.

(** The sum, the mean, the variance and the standard deviation. *)
Lemma fold_left_xr_add v c :
  fold_left xr_add (Fin <$> v) (Fin c) = Fin (c + rsum v).
Proof.
  revert c. induction v as [|t v IH]; intros c; simpl.
  - f_equal. lra.
  - rewrite IH. f_equal. lra.
Qed.

Lemma seq_sum_fin v : seq_sum (Fin <$> v) = Fin (rsum v).
Proof.
  unfold seq_sum. change (@f_add xreal XR) with xr_add.
  change (@f_zero xreal XR) with (Fin 0).
  rewrite fold_left_xr_add. f_equal. lra.
Qed.

(** Without rounding the order of a summation does not matter: the
    pairwise sum of NumPy is the sum. *)
Lemma rsum_app v w : rsum (v ++ w) = rsum v + rsum w.
Proof.
  induction v as [|t v IH]; [rewrite rsum_nil; simpl; lra|].
  change ((t :: v) ++ w) with (t :: (v ++ w)). rewrite !rsum_cons, IH. lra.
Qed.

Lemma zip_add_fin v w :
  zip_with f_add (Fin <$> v) (Fin <$> w) = Fin <$> zip_with Rplus v w.
Proof.
  revert w. induction v as [|t v IH]; intros [|u w]; try done.
  cbn [fmap list_fmap zip_with]. f_equal. apply IH.
Qed.

Lemma rsum_zip_plus v w :
  length v = length w → rsum (zip_with Rplus v w) = rsum v + rsum w.
Proof.
  revert w. induction v as [|t v IH]; intros [|u w] Hlen; try done.
  - rewrite rsum_nil. simpl. lra.
  - cbn [zip_with]. rewrite !rsum_cons, IH by (simpl in Hlen; lia). lra.
Qed.

Lemma tree8_fin v : length v = 8%nat → tree8 (Fin <$> v) = Fin (rsum v).
Proof.
  intros Hlen.
  destruct v as [|r0 [|r1 [|r2 [|r3 [|r4 [|r5 [|r6 [|r7 [|r8 v]]]]]]]]];
    try done.
  cbn [fmap list_fmap tree8]. change (@f_add xreal XR) with xr_add.
  cbn [xr_add]. rewrite !rsum_cons, rsum_nil. f_equal. lra.
Qed.

Lemma add_blocks_fin (n : nat) : ∀ v r,
  (length v ≤ n)%nat → length r = 8%nat →
  ∃ r' rest,
    add_blocks (Fin <$> r) (Fin <$> v) = (Fin <$> r', Fin <$> rest)
    ∧ length r' = 8%nat
    ∧ rsum r' + rsum rest = rsum r + rsum v.
Proof.
  induction n as [|n IH]; intros v r Hn Hr.
  { destruct v; [|simpl in Hn; lia]. by exists r, []. }
  destruct v as [|a0 [|a1 [|a2 [|a3 [|a4 [|a5 [|a6 [|a7 v]]]]]]]];
    try (match goal with
         | |- context [add_blocks _ (Fin <$> ?l)] =>
             exists r, l; split_and!; [reflexivity|assumption|reflexivity]
         end).
  cbn [fmap list_fmap add_blocks].
  change [Fin a0; Fin a1; Fin a2; Fin a3; Fin a4; Fin a5; Fin a6; Fin a7]
    with (Fin <$> [a0; a1; a2; a3; a4; a5; a6; a7]).
  rewrite zip_add_fin.
  destruct (IH v (zip_with Rplus r [a0; a1; a2; a3; a4; a5; a6; a7]))
    as (r' & rest & Heq & Hr' & Hsum).
  - simpl in Hn. lia.
  - rewrite length_zip_with. simpl. lia.
  - exists r', rest. split_and!; [done..|].
    rewrite Hsum, rsum_zip_plus by (by rewrite Hr).
    rewrite !rsum_cons, rsum_nil. lra.
Qed.

Lemma block_sum_fin v : block_sum (Fin <$> v) = Fin (rsum v).
Proof.
  destruct v as [|a0 [|a1 [|a2 [|a3 [|a4 [|a5 [|a6 [|a7 v]]]]]]]];
    try apply seq_sum_fin.
  cbn [fmap list_fmap block_sum].
  change [Fin a0; Fin a1; Fin a2; Fin a3; Fin a4; Fin a5; Fin a6; Fin a7]
    with (Fin <$> [a0; a1; a2; a3; a4; a5; a6; a7]).
  destruct (add_blocks_fin (length v) v [a0; a1; a2; a3; a4; a5; a6; a7])
    as (r' & rest & -> & Hr' & Hsum); [done..|].
  cbn [fst snd]. rewrite tree8_fin by done.
  change (@f_add xreal XR) with xr_add. rewrite fold_left_xr_add.
  f_equal. rewrite Hsum, !rsum_cons, rsum_nil. lra.
Qed.

Lemma pairwise_sum_rec_fin (fuel : nat) v :
  pairwise_sum_rec fuel (Fin <$> v) = Fin (rsum v).
Proof.
  revert v. induction fuel as [|fuel IH]; intros v; cbn [pairwise_sum_rec].
  - apply block_sum_fin.
  - destruct (decide _); [apply block_sum_fin|].
    rewrite <- fmap_take, <- fmap_drop, !IH.
    change (@f_add xreal XR) with xr_add. cbn [xr_add]. f_equal.
    by rewrite <- rsum_app, take_drop.
Qed.

Lemma np_sum_fin v : np_sum (Fin <$> v) = Fin (rsum v).
Proof. apply pairwise_sum_rec_fin. Qed.

Lemma xr_div_fin a c : c ≠ 0 → xr_div (Fin a) (Fin c) = Fin (a / c).
Proof. intros Hc. unfold xr_div. by rewrite decide_False. Qed.

Lemma np_mean_fin v : v ≠ [] → np_mean (Fin <$> v) = Fin (rmean v).
Proof.
  intros Hv. unfold np_mean, rmean. rewrite np_sum_fin, length_fmap.
  simpl. apply xr_div_fin. pose proof (INR_length_pos v Hv). lra.
Qed.

Lemma vsub_fin v c : vsub (Fin <$> v) (Fin c) = Fin <$> ((λ t, t - c) <$> v).
Proof.
  unfold vsub. rewrite <- !list_fmap_compose. by apply list_fmap_ext.
Qed.

Lemma vdiv_fin v c :
  c ≠ 0 → vdiv (Fin <$> v) (Fin c) = Fin <$> ((λ t, t / c) <$> v).
Proof.
  intros Hc. unfold vdiv. rewrite <- !list_fmap_compose.
  apply list_fmap_ext. intros i t _. simpl. by apply xr_div_fin.
Qed.

Lemma rvar_nonneg v : 0 <= rvar v.
Proof.
  unfold rvar. destruct v as [|t v].
  - simpl. unfold Rdiv. rewrite Rinv_0. lra.
  - apply Rmult_le_pos; [apply (rsum_squares_nonneg (λ t, t - _))|].
    apply Rlt_le, Rinv_0_lt_compat, INR_length_pos. done.
Qed.

Lemma np_var_fin v : v ≠ [] → np_var (Fin <$> v) = Fin (rvar v).
Proof.
  intros Hv. unfold np_var, rvar.
  rewrite np_mean_fin, vsub_fin by done.
  rewrite <- !list_fmap_compose, length_fmap.
  change ((λ z, f_mul z z) ∘ Fin ∘ (λ t, t - rmean v))
    with (Fin ∘ (λ t, (t - rmean v) * (t - rmean v))).
  rewrite list_fmap_compose, np_sum_fin. simpl.
  apply xr_div_fin. pose proof (INR_length_pos v Hv). lra.
Qed.

Lemma np_std_fin v : v ≠ [] → np_std (Fin <$> v) = Fin (rstd v).
Proof.
  intros Hv. unfold np_std, rstd. rewrite np_var_fin by done. simpl.
  rewrite decide_False; [done|]. pose proof (rvar_nonneg v). lra.
Qed.

Lemma rvar_nil : rvar [] = 0.
Proof. unfold rvar. simpl. unfold Rdiv. rewrite Rinv_0. lra. Qed.

Lemma rstd_nonzero v : rvar v ≠ 0 → rstd v ≠ 0 ∧ rstd v * rstd v = rvar v.
Proof.
  intros Hv. pose proof (rvar_nonneg v) as Hge. unfold rstd. split.
  - intros Hs. apply sqrt_eq_0 in Hs; lra.
  - by apply sqrt_sqrt.
Qed.

(** A finite row of nonzero variance is standardised as the specification
    has it. *)
Lemma snv_row_fin v :
  rvar v ≠ 0 → snv_row (Fin <$> v) = Fin <$> rstandardise v.
Proof.
  intros Hv. assert (v ≠ []) as Hne by (intros ->; by rewrite rvar_nil in Hv).
  unfold snv_row, rstandardise.
  rewrite np_mean_fin, np_std_fin, vsub_fin by done.
  rewrite vdiv_fin by (by apply rstd_nonzero).
  f_equal. by rewrite <- list_fmap_compose.
Qed.

(** The standardised row has mean 0 and population variance 1. *)
Lemma rmean_standardise v : rvar v ≠ 0 → rmean (rstandardise v) = 0.
Proof.
  intros Hv. assert (v ≠ []) as Hne by (intros ->; by rewrite rvar_nil in Hv).
  destruct (rstd_nonzero v Hv) as [Hs _].
  pose proof (INR_length_pos v Hne) as Hn.
  unfold rmean at 1, rstandardise. rewrite length_fmap.
  rewrite (rsum_ext _ (λ t, / rstd v * t + - (rmean v / rstd v)))
    by (intros; field; done).
  rewrite (rsum_plus (λ t, / rstd v * t) (λ _, - (rmean v / rstd v))).
  rewrite (rsum_scale (λ t, t)), rsum_id, rsum_const.
  unfold rmean. field. split; lra.
Qed.

Lemma rvar_standardise v : rvar v ≠ 0 → rvar (rstandardise v) = 1.
Proof.
  intros Hv. assert (v ≠ []) as Hne by (intros ->; by rewrite rvar_nil in Hv).
  destruct (rstd_nonzero v Hv) as [Hs Hss].
  pose proof (INR_length_pos v Hne) as Hn.
  unfold rvar at 1. rewrite rmean_standardise by done.
  unfold rstandardise. rewrite <- list_fmap_compose, length_fmap.
  rewrite (rsum_ext _ (λ t, / rvar v * ((t - rmean v) * (t - rmean v)))).
  2:{ intros t _. simpl. rewrite <- Hss. field. done. }
  rewrite (rsum_scale (λ t, (t - rmean v) * (t - rmean v))).
  assert (rsum ((λ t, (t - rmean v) * (t - rmean v)) <$> v)
          = rvar v * INR (length v)) as ->.
  { unfold rvar. field. lra. }
  field. split; first [lra|done].
Qed.

Lemma rstd_standardise v : rvar v ≠ 0 → rstd (rstandardise v) = 1.
Proof.
  intros Hv. unfold rstd. rewrite rvar_standardise by done. apply sqrt_1.
Qed.

(** Standardising a standardised row changes nothing. *)
Lemma rstandardise_idem v :
  rvar v ≠ 0 → rstandardise (rstandardise v) = rstandardise v.
Proof.
  intros Hv. unfold rstandardise at 1.
  rewrite rmean_standardise, rstd_standardise by done.
  rewrite <- (list_fmap_id (rstandardise v)) at 2.
  apply list_fmap_ext. intros i t _. simpl. field.
Qed.
End Exact.

(** ** snv *)

(** C2, as stated, fails in binary64: the row [0.1, 0.1, 0.1 + 2^-56]
    has a variance that is not zero, and [snv] returns for it the row
    [-1.2247..., -1.2247..., 0], whose mean is below -0.5 and whose
    standard deviation is below 0.625. The mean of the row rounds to its
    largest entry, so that the deviations are two units in the last place
    and one exact zero. *)
Lemma snv_nearly_constant_row_far_from_standard :
  PrimFloat.is_zero
    (np_var [0x1.999999999999ap-4; 0x1.999999999999ap-4;
             0x1.999999999999bp-4]%float) = false
  ∧ snv 1%positive
      (store1 (NdArray 3 [[0x1.999999999999ap-4; 0x1.999999999999ap-4;
                           0x1.999999999999bp-4]]%float))
    = (Ok 2%positive,
       <[2%positive := NdArray 3 [[-0x1.3988e1409212ep+0;
                                   -0x1.3988e1409212ep+0; 0]]%float]>
         (store1 (NdArray 3 [[0x1.999999999999ap-4; 0x1.999999999999ap-4;
                              0x1.999999999999bp-4]]%float)))
  ∧ PrimFloat.ltb
      (np_mean [-0x1.3988e1409212ep+0; -0x1.3988e1409212ep+0; 0]%float)
      (-0x1p-1)%float = true
  ∧ PrimFloat.ltb
      (np_std [-0x1.3988e1409212ep+0; -0x1.3988e1409212ep+0; 0]%float)
      0x1.4p-1%float = true.
Proof. split_and!; vm_compute; reflexivity. Qed.

(** C2, amended. In every arithmetic, [snv] returns a new matrix whose row
    [i] is [(row i - mean(row i)) / std(row i)], the standard deviation
    being the population one: the square root of the sum of the squared
    deviations over N. In exact arithmetic the mean and the standard
    deviation are those of the real numbers, and a finite row of nonzero
    variance comes out with mean 0 and population standard deviation 1; in
    binary64 every operation rounds, and that is not promised. *)
Theorem snv_standardises {F} `{Float64 F}
    (σ : heap F) (l : loc) (a : ndarray F) :
  σ !! l = Some a →
  snv l σ = (Ok (fresh (dom σ)), <[fresh (dom σ) := snv_spec a]> σ)
  ∧ (∀ i r, rows a !! i = Some r →
       rows (snv_spec a) !! i
       = Some (vdiv (vsub r (np_mean r))
                 (f_sqrt (f_div (np_sum (sq <$> vsub r (np_mean r)))
                            (f_of_nat (length r))))))
  ∧ (∀ v, v ≠ [] →
       np_mean (Fin <$> v) = Fin (rmean v)
       ∧ np_std (Fin <$> v) = Fin (rstd v))
  ∧ ∀ v, rvar v ≠ 0%R →
      snv_row (Fin <$> v) = Fin <$> rstandardise v
      ∧ np_mean (snv_row (Fin <$> v)) = Fin 0
      ∧ np_std (snv_row (Fin <$> v)) = Fin 1.
Proof.
  intros Hl. split_and!.
  - by apply snv_run.
  - intros i r Hi. simpl. by rewrite list_lookup_fmap, Hi.
  - intros v Hv. by rewrite np_mean_fin, np_std_fin.
  - intros v Hv.
    assert (rstandardise v ≠ []) as Hne.
    { intros Hnil. apply fmap_nil_inv in Hnil. subst v.
      by rewrite rvar_nil in Hv. }
    rewrite snv_row_fin by done. split_and!; [done| |].
    + by rewrite np_mean_fin, rmean_standardise.
    + by rewrite np_std_fin, rstd_standardise.
Qed.

Lemma rvar_1_3 : rvar [1; 3]%R = 1%R.
Proof. unfold rvar, rmean, rsum. simpl. field. Qed.

Lemma snv_standardises_witness :
  snv 1%positive (store1 sample_b64)
  = (Ok (fresh (dom (store1 sample_b64))),
     <[fresh (dom (store1 sample_b64)) := snv_spec sample_b64]>
       (store1 sample_b64))
  ∧ np_mean (snv_row (Fin <$> [1; 3]%R)) = Fin 0
  ∧ np_std (snv_row (Fin <$> [1; 3]%R)) = Fin 1.
Proof.
  destruct (snv_standardises (store1 sample_b64) 1%positive sample_b64)
    as (Hrun & _ & _ & Hexact).
  - reflexivity.
  - split; [exact Hrun|].
    destruct (Hexact [1; 3]%R) as (_ & Hmean & Hstd); [|done].
    rewrite rvar_1_3. lra.
Defined.

(** C10, as stated, fails in binary64: for the row
    [0.1, 0.1, 0.1 + 2^-56], of nonzero variance, [snv] returns
    [-1.2247..., -1.2247..., 0], and [snv] of that row is
    [-0.7071..., -0.7071..., 1.4142...]. *)
Lemma snv_twice_differs_in_binary64 :
  PrimFloat.is_zero
    (np_var [0x1.999999999999ap-4; 0x1.999999999999ap-4;
             0x1.999999999999bp-4]%float) = false
  ∧ snv_spec (NdArray 3 [[0x1.999999999999ap-4; 0x1.999999999999ap-4;
                          0x1.999999999999bp-4]]%float)
    = NdArray 3 [[-0x1.3988e1409212ep+0; -0x1.3988e1409212ep+0; 0]]%float
  ∧ snv 1%positive
      (store1 (NdArray 3 [[-0x1.3988e1409212ep+0; -0x1.3988e1409212ep+0;
                           0]]%float))
    = (Ok 2%positive,
       <[2%positive := NdArray 3 [[-0x1.6a09e667f3bcdp-1;
                                   -0x1.6a09e667f3bcdp-1;
                                   0x1.6a09e667f3bccp+0]]%float]>
         (store1 (NdArray 3 [[-0x1.3988e1409212ep+0; -0x1.3988e1409212ep+0;
                              0]]%float))).
Proof. split_and!; vm_compute; reflexivity. Qed.

(** C10, amended. In exact arithmetic, on a matrix whose rows are finite
    and of nonzero variance, [snv] applied to the result of [snv] returns
    that result again, because its rows have the mean 0 and the population
    standard deviation 1; in binary64, where every operation rounds, that
    is not promised. *)
Theorem snv_idempotent (σ : heap xreal) (l : loc) (a : ndarray xreal) :
  σ !! l = Some a →
  Forall (λ r, ∃ v, r = Fin <$> v ∧ rvar v ≠ 0%R) (rows a) →
  snv_spec (snv_spec a) = snv_spec a
  ∧ ∃ l1 σ1 l2 σ2,
      snv l σ = (Ok l1, σ1) ∧ snv l1 σ1 = (Ok l2, σ2)
      ∧ σ1 !! l1 = Some (snv_spec a) ∧ σ2 !! l2 = Some (snv_spec a).
Proof.
  intros Hl Hrows.
  assert (snv_spec (snv_spec a) = snv_spec a) as Hidem.
  { unfold snv_spec. simpl. f_equal. rewrite <- list_fmap_compose.
    apply list_fmap_ext. intros i r Hr. simpl.
    destruct (Forall_lookup_1 _ _ _ _ Hrows Hr) as (v & -> & Hv).
    rewrite (snv_row_fin v Hv).
    rewrite snv_row_fin by (rewrite rvar_standardise by done; lra).
    by rewrite rstandardise_idem. }
  split; [done|].
  eexists _, _, _, _. split_and!.
  - by apply snv_run.
  - apply snv_run. apply lookup_insert_eq.
  - apply lookup_insert_eq.
  - rewrite Hidem. apply lookup_insert_eq.
Qed.

Lemma snv_idempotent_witness :
  snv_spec (snv_spec (NdArray 2 [[Fin 1; Fin 3]]))
  = snv_spec (NdArray 2 [[Fin 1; Fin 3]]).
Proof.
  apply (snv_idempotent (store1 (NdArray 2 [[Fin 1; Fin 3]])) 1%positive).
  - apply lookup_singleton_eq.
  - repeat constructor. exists [1; 3]%R. split; [done|].
    rewrite rvar_1_3. lra.
Defined.

(** ** smooth with a window of one sample *)

Lemma xr_unit_weight (x : xreal) : xr_add (Fin 0) (xr_mul (Fin 1) x) = x.
Proof.
  destruct x as [t| | |]; simpl.
  - f_equal. lra.
  - rewrite decide_False by lra. unfold Rpositive.
    by rewrite bool_decide_eq_true_2 by lra.
  - rewrite decide_False by lra. unfold Rpositive.
    by rewrite bool_decide_eq_true_2 by lra.
  - done.
Qed.

Lemma xr_unit_window : vdiv [f_one] (np_sum [f_one]) = [Fin 1].
Proof.
  change [f_one] with (Fin <$> [1%R]). rewrite np_sum_fin.
  rewrite vdiv_fin by (unfold rsum; simpl; lra).
  simpl. do 2 f_equal. unfold rsum. simpl. field.
Qed.

Lemma correlate_point_single {F} `{Float64 F} m (input : list F) w center i :
  correlate_point m input [w] center i
  = if f_ltb f_eps (f_abs w)
    then f_add f_zero
           (f_mul w (sample m input (Z.of_nat i + Z.of_nat 0 - center)))
    else f_zero.
Proof. done. Qed.

Lemma xr_eps_below_one : xr_ltb (Fin (/ 2 ^ 52)) (xr_abs (Fin 1)) = true.
Proof.
  unfold xr_ltb, xr_abs. apply bool_decide_eq_true_2. rewrite Rabs_R1.
  assert (1 < 2 ^ 52)%R as Hpow by (apply Rlt_pow_R1; [lra|lia]).
  apply Rmult_lt_reg_l with (2 ^ 52)%R; [lra|].
  rewrite Rinv_r by lra. lra.
Qed.

Lemma sample_in_range {F} `{Float64 F} m (input : list F) i x :
  input !! i = Some x → sample m input (Z.of_nat i + Z.of_nat 0 - 0) = x.
Proof.
  intros Hx. pose proof (lookup_lt_Some _ _ _ Hx) as Hi.
  unfold sample, extend_index. rewrite decide_True by lia.
  replace (Z.to_nat (Z.of_nat i + Z.of_nat 0 - 0)) with i by lia.
  by rewrite Hx.
Qed.

Lemma nd_convolve_unit (r : list xreal) (mode : string) :
  known_mode mode → nd_convolve r [Fin 1] mode = Ok r.
Proof.
  intros Hm. unfold nd_convolve. rewrite decide_False by done.
  destruct (extend_mode_known _ Hm) as [m ->].
  change (reverse [Fin 1]) with [Fin 1].
  change (Z.of_nat (length [Fin 1]) `div` 2
          + (if Z.even (Z.of_nat (length [Fin 1])) then -1 else 0))%Z
    with 0%Z.
  unfold res_bind. f_equal.
  apply list_eq. intros i. rewrite list_lookup_fmap.
  destruct (decide (i < length r)) as [Hi|Hi].
  - rewrite lookup_seq_lt by done.
    destruct (lookup_lt_is_Some_2 r i Hi) as [x Hx]. rewrite Hx.
    unfold fmap, option_fmap, option_map. f_equal.
    rewrite correlate_point_single.
    change (f_ltb f_eps (f_abs (Fin 1)))
      with (xr_ltb (Fin (/ 2 ^ 52)) (xr_abs (Fin 1))).
    rewrite xr_eps_below_one, (sample_in_range _ _ _ _ Hx).
    apply xr_unit_weight.
  - rewrite lookup_seq_ge by lia. symmetry.
    apply lookup_ge_None. lia.
Qed.

(** C9. [smooth] with [filter_win = 1] and the flat window returns the
    matrix it was given with every entry as it was, whatever the boundary
    mode among those SciPy knows (in exact arithmetic). *)
Theorem smooth_unit_flat_window_is_identity `{SciPy xreal}
    (σ : heap xreal) (l : loc) (a : ndarray xreal) (mode : string) :
  σ !! l = Some a →
  known_mode mode →
  smooth l 1 "flat" mode σ = (Ok l, σ).
Proof.
  intros Hl Hm. rewrite (smooth_run σ l a _ _ _ Hl).
  assert (smooth_spec a 1 "flat" mode = Ok a) as ->.
  { unfold smooth_spec, smooth_window, np_ones.
    rewrite decide_True by done. rewrite decide_False by lia.
    change (Z.to_nat 1) with 1.
    change (replicate 1 f_one) with [f_one : xreal].
    unfold res_bind at 1 2. rewrite xr_unit_window.
    assert (res_map (λ r, nd_convolve r [Fin 1] mode) (rows a)
            = Ok (rows a)) as ->.
    { induction (rows a) as [|r rs IH]; [done|]. simpl.
      rewrite nd_convolve_unit by done. simpl. by rewrite IH. }
    simpl. by rewrite ndarray_eta. }
  by rewrite insert_id.
Qed.

Lemma smooth_unit_flat_window_is_identity_witness :
  smooth 1%positive 1 "flat" "wrap" (store1 (NdArray 2 [[Fin 1; Fin 3]]))
  = (Ok 1%positive, store1 (NdArray 2 [[Fin 1; Fin 3]])).
Proof.
  apply (smooth_unit_flat_window_is_identity _ _
           (NdArray 2 [[Fin 1; Fin 3]])).
  - apply lookup_singleton_eq.
  - unfold known_mode. rewrite !elem_of_cons. tauto.
Defined.

(** ** Ordinary least squares *)

Section LeastSquares.
Local Open Scope R_scope.
Implicit Types (x y u v : list R) (s i c : R).

Lemma rdot_nil_l y : rdot [] y = 0.
Proof. done. Qed.
Lemma rdot_nil_r x : rdot x [] = 0.
Proof. by destruct x. Qed.
Lemma rdot_cons a b x y : rdot (a :: x) (b :: y) = a * b + rdot x y.
Proof. done. Qed.

Lemma rdot_scale_l c x y : rdot ((λ t, t / c) <$> x) y = rdot x y / c.
Proof.
  revert y. induction x as [|a x IH]; intros [|b y];
    rewrite ?fmap_nil, ?fmap_cons, ?rdot_nil_l, ?rdot_nil_r, ?rdot_cons;
    try (unfold Rdiv; lra).
  rewrite IH. unfold Rdiv. lra.
Qed.

Lemma rdot_comm x y : rdot x y = rdot y x.
Proof.
  revert y. induction x as [|a x IH]; intros [|b y];
    rewrite ?rdot_nil_l, ?rdot_nil_r, ?rdot_cons; try lra.
  rewrite IH. lra.
Qed.

Lemma rdot_scale_r c x y : rdot x ((λ t, t / c) <$> y) = rdot x y / c.
Proof. by rewrite rdot_comm, rdot_scale_l, rdot_comm. Qed.

Lemma rdot_ones_r x : rdot x (replicate (length x) 1) = rsum x.
Proof.
  induction x as [|a x IH]; [done|].
  change (replicate (length (a :: x)) 1) with (1 :: replicate (length x) 1).
  rewrite rdot_cons, rsum_cons, IH. lra.
Qed.

Lemma rdot_ones_l x y :
  length x = length y → rdot (replicate (length x) 1) y = rsum y.
Proof. intros ->. by rewrite rdot_comm, rdot_ones_r. Qed.

Lemma rdot_ones_ones (n : nat) : rdot (replicate n 1) (replicate n 1) = INR n.
Proof.
  rewrite <- (length_replicate n 1) at 2. rewrite rdot_ones_r.
  induction n as [|n IH]; [done|].
  change (replicate (S n) 1) with (1 :: replicate n 1).
  rewrite rsum_cons, IH, S_INR. lra.
Qed.

Lemma rdot_self_nonneg x : 0 <= rdot x x.
Proof.
  induction x as [|a x IH]; rewrite ?rdot_nil_l, ?rdot_cons; [lra|nra].
Qed.

(** The squared residuals, expanded. *)
Lemma sse_expand x y s i :
  length x = length y →
  sse x y s i
  = rdot y y - 2 * s * rdot x y - 2 * i * rsum y
    + s * s * rdot x x + 2 * s * i * rsum x + INR (length x) * i * i.
Proof.
  revert y. induction x as [|a x IH]; intros [|b y] Hlen; try done.
  - unfold sse. simpl. rewrite !rdot_nil_l. lra.
  - injection Hlen as Hlen. specialize (IH y Hlen). unfold sse in *.
    change (zip_with ?f (a :: x) (b :: y))
      with (f a b :: zip_with f x y).
    rewrite !rsum_cons, !rdot_cons, IH.
    change (length (a :: x)) with (S (length x)). rewrite S_INR. lra.
Qed.

Lemma affine_squares (A B : R) x :
  0 <= A * A * rdot x x + 2 * A * B * rsum x + INR (length x) * B * B.
Proof.
  induction x as [|a x IH].
  - rewrite rdot_nil_l, rsum_nil. simpl. lra.
  - rewrite rdot_cons, rsum_cons.
    change (length (a :: x)) with (S (length x)). rewrite S_INR.
    pose proof (Rle_0_sqr (A * a + B)) as Hsq. unfold Rsqr in Hsq. lra.
Qed.

(** Equality in the Cauchy-Schwarz inequality against the ones: the vector
    is constant, and its inner products are those of a constant. *)
Lemma constant_vector x :
  INR (length x) * rdot x x = rsum x * rsum x →
  ∀ t, t ∈ x → INR (length x) * t = rsum x.
Proof.
  intros Hcs.
  assert (rsum ((λ t, (INR (length x) * t - rsum x)
                      * (INR (length x) * t - rsum x)) <$> x) = 0) as Hz.
  { assert (∀ A B, rsum ((λ t, (A * t - B) * (A * t - B)) <$> x)
                   = A * A * rdot x x - 2 * A * B * rsum x
                     + INR (length x) * B * B) as ->.
    { intros A B. clear Hcs. induction x as [|a x IH].
      - rewrite fmap_nil, rdot_nil_l, rsum_nil. simpl. lra.
      - rewrite fmap_cons, rdot_cons, !rsum_cons, IH.
        change (length (a :: x)) with (S (length x)). rewrite S_INR. lra. }
    replace (INR (length x) * INR (length x) * rdot x x)
      with (INR (length x) * (INR (length x) * rdot x x)) by ring.
    rewrite Hcs. ring. }
  intros t Ht.
  pose proof (rsum_squares_zero (λ t, INR (length x) * t - rsum x) x Hz t Ht).
  simpl in *. lra.
Qed.

Lemma rdot_constant c d x y :
  (∀ t, t ∈ x → c * t = d) → length x = length y →
  c * rdot x y = d * rsum y.
Proof.
  revert y. induction x as [|a x IH]; intros [|b y] Hx Hlen; try done.
  - rewrite rdot_nil_l, rsum_nil. lra.
  - injection Hlen as Hlen. rewrite rdot_cons, rsum_cons.
    pose proof (Hx a ltac:(left)) as Ha.
    assert (c * rdot x y = d * rsum y) as IH'.
    { apply IH; [|done]. intros t Ht. apply Hx. by right. }
    nra.
Qed.

Lemma cs_equality x y :
  length x = length y →
  INR (length x) * rdot x x = rsum x * rsum x →
  INR (length x) * rdot x y = rsum x * rsum y.
Proof.
  intros Hlen Hcs. apply rdot_constant; [|done]. by apply constant_vector.
Qed.

(** A solution of the normal equations fits best. *)
Lemma normal_equations_least_squares x y s i :
  length x = length y →
  s * rdot x x + i * rsum x = rdot x y →
  s * rsum x + i * INR (length x) = rsum y →
  least_squares x y s i.
Proof.
  intros Hlen H1 H2 s' i'. rewrite !sse_expand by done.
  pose proof (affine_squares (s - s') (i - i') x) as Hsq. nra.
Qed.

(** The solution for two columns of norm 1. *)
Lemma solve2_unit (uv uy vy : R) :
  (uv * uv = 1 → uv * vy = uy ∧ uv * uy = vy) →
  (solve2 1 uv 1 uy vy).1 + uv * (solve2 1 uv 1 uy vy).2 = uy
  ∧ uv * (solve2 1 uv 1 uy vy).1 + (solve2 1 uv 1 uy vy).2 = vy.
Proof.
  intros Hdep. unfold solve2. destruct (decide (1 * 1 - uv * uv = 0)) as [Hd|Hd].
  - destruct Hdep as [H1 H2]; [lra|].
    rewrite decide_False by lra. simpl. lra.
  - simpl. split; field; lra.
Qed.

(** What [np.polyfit] returns solves the normal equations of the line. *)
Lemma rpolyfit_normal x y :
  x ≠ [] → length x = length y → rdot x x ≠ 0 →
  (rpolyfit x y).1 * rdot x x + (rpolyfit x y).2 * rsum x = rdot x y
  ∧ (rpolyfit x y).1 * rsum x + (rpolyfit x y).2 * INR (length x) = rsum y.
Proof.
  intros Hne Hlen Hxx. unfold rpolyfit, rlstsq2.
  rewrite rdot_ones_ones.
  pose proof (INR_length_pos x Hne) as Hn.
  pose proof (rdot_self_nonneg x) as Hxx0.
  set (s0 := R_sqrt.sqrt (rdot x x)). set (s1 := R_sqrt.sqrt (INR (length x))).
  assert (s0 * s0 = rdot x x) as Hs0 by (apply sqrt_sqrt; lra).
  assert (s1 * s1 = INR (length x)) as Hs1 by (apply sqrt_sqrt; lra).
  assert (0 < s0) as Hs0p by (apply sqrt_lt_R0; lra).
  assert (0 < s1) as Hs1p by (apply sqrt_lt_R0; lra).
  rewrite !rdot_scale_l, !rdot_scale_r, rdot_ones_ones, rdot_ones_r.
  rewrite (rdot_ones_l x y Hlen).
  set (uv := rsum x / s1 / s0). set (uy := rdot x y / s0).
  set (vy := rsum y / s1).
  assert (rdot x x / s0 / s0 = 1) as -> by (rewrite <- Hs0; field; lra).
  assert (INR (length x) / s1 / s1 = 1) as -> by (rewrite <- Hs1; field; lra).
  destruct (solve2_unit uv uy vy) as [H1 H2].
  { intros Huv.
    assert (INR (length x) * rdot x x = rsum x * rsum x) as Hcs.
    { rewrite <- Hs0, <- Hs1.
      assert (rsum x = uv * s1 * s0) as -> by (unfold uv; field; lra).
      replace (uv * s1 * s0 * (uv * s1 * s0))
        with (uv * uv * (s1 * s1 * (s0 * s0))) by ring.
      rewrite Huv. ring. }
    pose proof (cs_equality x y Hlen Hcs) as Hxy.
    assert (rsum x * rdot x y = rdot x x * rsum y) as Hxy'.
    { apply (Rmult_eq_reg_l (INR (length x))); [|lra].
      replace (INR (length x) * (rsum x * rdot x y))
        with (rsum x * (INR (length x) * rdot x y)) by ring.
      rewrite Hxy.
      replace (INR (length x) * (rdot x x * rsum y))
        with (INR (length x) * rdot x x * rsum y) by ring.
      rewrite Hcs. ring. }
    unfold uv, uy, vy. split.
    - transitivity (rsum x * rsum y / (s1 * s1 * s0)); [field; lra|].
      rewrite <- Hxy, <- Hs1. field. lra.
    - transitivity (rsum x * rdot x y / (s1 * (s0 * s0))); [field; lra|].
      rewrite Hxy', <- Hs0. field. lra. }
  set (c := solve2 1 uv 1 uy vy) in *. simpl. split.
  - replace (c.1 / s0 * rdot x x + c.2 / s1 * rsum x)
      with (s0 * (c.1 + uv * c.2))
      by (rewrite <- Hs0; unfold uv; field; lra).
    rewrite H1. unfold uy. field. lra.
  - replace (c.1 / s0 * rsum x + c.2 / s1 * INR (length x))
      with (s1 * (uv * c.1 + c.2))
      by (rewrite <- Hs1; unfold uv; field; lra).
    rewrite H2. unfold vy. field. lra.
Qed.

(** Step 3 of [msc]: the line of [np.polyfit] fits best. *)
Lemma rpolyfit_least_squares x y :
  x ≠ [] → length x = length y → rdot x x ≠ 0 →
  least_squares x y (rpolyfit x y).1 (rpolyfit x y).2.
Proof.
  intros Hne Hlen Hxx. destruct (rpolyfit_normal x y Hne Hlen Hxx).
  by apply normal_equations_least_squares.
Qed.
End LeastSquares.

(** ** np.polyfit and msc in exact arithmetic *)

Section ExactMsc.
Local Open Scope R_scope.
Implicit Types (x y v : list R) (m : list (list R)).

Lemma reals_of_fin v : reals_of (Fin <$> v) = Some v.
Proof.
  induction v as [|t v IH]; [done|].
  rewrite fmap_cons. cbn [reals_of]. by rewrite IH.
Qed.

Lemma rdot_self x : rsum ((λ t, t * t) <$> x) = rdot x x.
Proof.
  induction x as [|t x IH]; [done|].
  by rewrite fmap_cons, rsum_cons, rdot_cons, IH.
Qed.

Lemma seq_sum_sq_fin x : seq_sum (sq <$> (Fin <$> x)) = Fin (rdot x x).
Proof.
  rewrite <- list_fmap_compose.
  change (sq ∘ Fin) with (Fin ∘ (λ t, t * t)).
  by rewrite list_fmap_compose, seq_sum_fin, rdot_self.
Qed.

Lemma replicate_fin (n : nat) c : replicate n (Fin c) = Fin <$> replicate n c.
Proof. by rewrite fmap_replicate. Qed.

Lemma xr_sqrt_fin c : 0 <= c → xr_sqrt (Fin c) = Fin (R_sqrt.sqrt c).
Proof. intros Hc. unfold xr_sqrt. by rewrite decide_False by lra. Qed.

Lemma polyfit_fin x y :
  x ≠ [] → length x = length y → rdot x x ≠ 0 →
  polyfit (Fin <$> x) (Fin <$> y)
  = Ok (Fin (rpolyfit x y).1, Fin (rpolyfit x y).2).
Proof.
  intros Hne Hlen Hxx. unfold polyfit. rewrite !length_fmap.
  rewrite decide_False by (by destruct x).
  rewrite decide_True by done.
  pose proof (INR_length_pos x Hne) as Hn.
  pose proof (rdot_self_nonneg x) as Hxx0.
  change (@f_one xreal XR) with (Fin 1).
  rewrite replicate_fin, !seq_sum_sq_fin.
  change (@f_sqrt xreal XR) with xr_sqrt.
  rewrite !xr_sqrt_fin by (done || apply rdot_self_nonneg).
  assert (R_sqrt.sqrt (rdot x x) ≠ 0) as Hs0.
  { intros Hs. apply sqrt_eq_0 in Hs; lra. }
  assert (R_sqrt.sqrt (rdot (replicate (length x) 1) (replicate (length x) 1))
          ≠ 0) as Hs1.
  { rewrite rdot_ones_ones. intros Hs. apply sqrt_eq_0 in Hs; lra. }
  rewrite !vdiv_fin by done.
  change (@lstsq2 xreal XR_lapack) with xr_lstsq2. unfold xr_lstsq2.
  rewrite !reals_of_fin. unfold res_bind.
  change (@f_div xreal XR) with xr_div. cbn [fst snd].
  rewrite !xr_div_fin by done. done.
Qed.

Lemma polyfit_fin_zero x y :
  x ≠ [] → length x = length y → rdot x x = 0 →
  polyfit (Fin <$> x) (Fin <$> y)
  = Err (LinAlgError "SVD did not converge in Linear Least Squares").
Proof.
  intros Hne Hlen Hxx. unfold polyfit. rewrite !length_fmap.
  rewrite decide_False by (by destruct x).
  rewrite decide_True by done.
  rewrite seq_sum_sq_fin, Hxx.
  change (@f_sqrt xreal XR) with xr_sqrt.
  rewrite xr_sqrt_fin, sqrt_0 by lra.
  change (@lstsq2 xreal XR_lapack) with xr_lstsq2. unfold xr_lstsq2.
  destruct x as [|t x]; [done|].
  assert (reals_of (vdiv (Fin <$> t :: x) (Fin 0)) = None) as ->; [|done].
  unfold vdiv. rewrite !fmap_cons. cbn [reals_of].
  change (@f_div xreal XR) with xr_div. unfold xr_div.
  rewrite decide_True by done.
  destruct (decide (t = 0)); [done|]. by destruct (Rpositive t).
Qed.

(** When [np.polyfit] returns on real data, it returns the best line. *)
Lemma polyfit_fin_ok x y (fit : xreal * xreal) :
  polyfit (Fin <$> x) (Fin <$> y) = Ok fit →
  fit = (Fin (rpolyfit x y).1, Fin (rpolyfit x y).2)
  ∧ least_squares x y (rpolyfit x y).1 (rpolyfit x y).2.
Proof.
  intros Hfit.
  assert (x ≠ [] ∧ length x = length y) as [Hne Hlen].
  { unfold polyfit in Hfit. rewrite !length_fmap in Hfit.
    destruct (decide (length x = 0%nat)); [done|].
    destruct (decide (length x = length y)); [|done].
    split; [|done]. by intros ->. }
  destruct (decide (rdot x x = 0)) as [Hxx|Hxx].
  - by rewrite polyfit_fin_zero in Hfit.
  - rewrite polyfit_fin in Hfit by done. injection Hfit as <-.
    split; [done|]. by apply rpolyfit_least_squares.
Qed.

(** Steps 1 and 2 on a matrix of real numbers. *)
Lemma center_row_fin v :
  vsub (Fin <$> v) (np_mean (Fin <$> v)) = Fin <$> rcenter v.
Proof.
  destruct (decide (v = [])) as [->|Hv]; [done|].
  by rewrite np_mean_fin, vsub_fin.
Qed.

Lemma center_rows_fin (n : nat) m :
  center_rows (fin_matrix n m) = fin_matrix n (rcenter <$> m).
Proof.
  unfold center_rows, fin_matrix. simpl. f_equal.
  rewrite <- !list_fmap_compose. apply list_fmap_ext.
  intros i v _. simpl. apply center_row_fin.
Qed.

Lemma column_fin m (j : nat) :
  column ((λ r : list R, Fin <$> r) <$> m) j = Fin <$> rcolumn m j.
Proof.
  unfold column, rcolumn. rewrite <- !list_fmap_compose.
  apply list_fmap_ext. intros i v _. simpl.
  rewrite list_lookup_fmap. by destruct (v !! j).
Qed.

Lemma mean_axis0_fin (n : nat) m :
  m ≠ [] → mean_axis0 (fin_matrix n m) = Fin <$> rcolumn_means n m.
Proof.
  intros Hm. unfold mean_axis0, rcolumn_means, fin_matrix. simpl.
  rewrite <- list_fmap_compose. apply list_fmap_ext. intros i j _. simpl.
  rewrite column_fin, seq_sum_fin. unfold nrows, rmean, rcolumn. simpl.
  rewrite !length_fmap. apply xr_div_fin.
  assert (0 < INR (length m)); [|lra].
  apply lt_0_INR. destruct m; [done|simpl; lia].
Qed.
End ExactMsc.

Lemma res_map_Forall2 {A B} (f : A → result B) (l : list A) (l' : list B) :
  res_map f l = Ok l' → Forall2 (λ x y, f x = Ok y) l l'.
Proof.
  revert l'. induction l as [|x l IH]; simpl; intros l' Hl.
  - injection Hl as <-. constructor.
  - destruct (f x) as [y|] eqn:Hy; simpl in Hl; [|done].
    destruct (res_map f l) as [ys|]; simpl in Hl; [|done].
    injection Hl as <-. constructor; [done|]. by apply IH.
Qed.

(** C1. [msc] computes its result by the algorithm of the specification:
    every row minus its own mean; the reference, which is the column-wise
    mean of the centered matrix when none is supplied and the supplied one
    otherwise; for every centered row the slope and intercept of the line
    that fits it best against the reference in the least-squares sense; and
    the row corrected as [(row - intercept) / slope]. The call returns
    whenever the reference has the width of the matrix and is not the zero
    vector. (On a matrix of finite values, in exact arithmetic.) *)
Theorem msc_algorithm (σ : heap xreal) (l : loc) (n : nat)
    (m : list (list R)) (reference : option (list R)) :
  let a := fin_matrix n m in
  let centered := rcenter <$> m in
  let ref := match reference with
             | None => rcolumn_means n centered
             | Some r => r
             end in
  let xref := (λ r : list R, Fin <$> r) <$> reference in
  σ !! l = Some a →
  match msc_spec a xref with
  | Ok a' => returns (msc l xref σ) (λ b, b = a')
  | Err e => (msc l xref σ).1 = Err e
  end
  ∧ center_rows a = fin_matrix n centered
  ∧ (m ≠ [] → msc_reference a xref = Fin <$> ref)
  ∧ (∀ a', msc_spec a xref = Ok a' →
       ncols a' = n
       ∧ Forall2
           (λ c out, ∃ s i,
              least_squares ref c s i
              ∧ out = vdiv (vsub (Fin <$> c) (Fin i)) (Fin s))
           centered (rows a'))
  ∧ (rect a → ref ≠ [] → length ref = n → rdot ref ref ≠ 0%R →
     ∃ a', msc_spec a xref = Ok a').
Proof.
  intros a centered ref xref Hl.
  assert (m ≠ [] → msc_reference a xref = Fin <$> ref) as Href.
  { intros Hm. unfold msc_reference, xref, ref.
    destruct reference as [r|]; [done|]. simpl.
    unfold a. rewrite center_rows_fin. apply mean_axis0_fin.
    unfold centered. by destruct m. }
  split_and!.
  - by apply msc_outcome.
  - apply center_rows_fin.
  - exact Href.
  - intros a' Hspec. unfold msc_spec in Hspec.
    destruct (res_map _ _) as [rs|] eqn:Hrs; simpl in Hspec; [|done].
    injection Hspec as <-. split; [done|]. simpl.
    apply res_map_Forall2 in Hrs. unfold a in Hrs.
    rewrite center_rows_fin in Hrs. simpl in Hrs. fold centered in Hrs.
    apply Forall2_fmap_l in Hrs.
    destruct (decide (m = [])) as [Hm|Hm].
    { subst m. inversion Hrs. constructor. }
    fold a in Hrs. rewrite (Href Hm) in Hrs.
    eapply Forall2_impl; [exact Hrs|]. intros c out Hrow. simpl in Hrow.
    unfold msc_row in Hrow.
    destruct (polyfit (Fin <$> ref) (Fin <$> c)) as [fit|] eqn:Hfit;
      simpl in Hrow; [|done].
    injection Hrow as <-.
    destruct (polyfit_fin_ok _ _ _ Hfit) as [-> Hls].
    eexists _, _. split; [exact Hls|done].
  - intros Ha Hne Hlen Hxx. unfold msc_spec.
    destruct (decide (m = [])) as [Hm|Hm].
    { subst m. simpl. eauto. }
    rewrite (Href Hm). unfold a. rewrite center_rows_fin. simpl.
    fold centered.
    destruct (res_map_ok (msc_row (Fin <$> ref))
                ((λ r : list R, Fin <$> r) <$> centered)) as [rs ->];
      [|simpl; eauto].
    apply Forall_fmap, Forall_forall. intros c Hc. simpl.
    unfold msc_row. rewrite polyfit_fin; [done|done| |done].
    unfold centered in Hc. apply list_elem_of_fmap in Hc as (v & -> & Hv).
    unfold rcenter. rewrite length_fmap, Hlen.
    unfold rect, a, fin_matrix in Ha. simpl in Ha.
    rewrite Forall_fmap in Ha.
    pose proof (proj1 (Forall_forall _ _) Ha v Hv) as Hlv. simpl in Hlv.
    by rewrite length_fmap in Hlv.
Qed.

Lemma msc_algorithm_witness :
  ∃ a', msc_spec (fin_matrix 2 [[1; 3]; [2; 6]]%R) (Some [Fin 1; Fin 2])
        = Ok a'.
Proof.
  destruct (msc_algorithm (store1 (fin_matrix 2 [[1; 3]; [2; 6]]%R))
              1%positive 2 [[1; 3]; [2; 6]]%R (Some [1; 2]%R))
    as (_ & _ & _ & _ & Hreturns).
  - apply lookup_singleton_eq.
  - apply Hreturns.
    + repeat constructor.
    + done.
    + done.
    + unfold rdot, rsum. simpl. lra.
Defined.

(** ** Zero denominators *)

(** In binary64 a division by a zero is never finite. *)
Lemma b64_div_zero (x z : float) :
  PrimFloat.is_zero z = true → PrimFloat.is_finite (x / z) = false.
Proof.
  assert (Prim2SF zero = S754_zero false) as Hzero by reflexivity.
  assert (Prim2SF infinity = S754_infinity false) as Hinf by reflexivity.
  unfold PrimFloat.is_zero. rewrite FloatAxioms.eqb_spec, Hzero. intros Hz.
  assert (∃ s, Prim2SF z = S754_zero s) as [s Hs].
  { destruct (Prim2SF z) as [s|s| |s mz ez]; [by exists s|..];
      try destruct s; done. }
  unfold PrimFloat.is_finite, PrimFloat.is_nan, PrimFloat.is_infinity.
  rewrite !FloatAxioms.eqb_spec, abs_spec, div_spec, Hs, Hinf.
  destruct (Prim2SF x) as [sx|sx| |sx mx ex]; simpl; try done;
    by destruct sx, s.
Qed.

(** So is it in exact arithmetic with the IEEE special values. *)
Lemma xr_div_zero (x z : xreal) :
  xr_is_zero z = true → xr_is_finite (xr_div x z) = false.
Proof.
  destruct z as [c| | |]; simpl; try done.
  intros Hc. apply bool_decide_eq_true_1 in Hc. subst c.
  destruct x as [t| | |]; simpl; try done.
  - rewrite decide_True by done.
    destruct (decide (t = 0%R)); [done|]. by destruct (Rpositive t).
  - by rewrite bool_decide_eq_true_2 by lra.
  - by rewrite bool_decide_eq_false_2 by lra.
Qed.

(** C5, as stated, fails on the machine's numbers: the mean of the constant
    row [0.1, 0.1, 0.1] is rounded up by one unit in the last place, the
    deviations and the standard deviation are 2^-56 in magnitude and not 0,
    and [snv] returns the finite row [-1, -1, -1]. *)
Lemma snv_constant_row_finite_output :
  snv 1%positive
    (store1 (NdArray 3 [[0x1.999999999999ap-4; 0x1.999999999999ap-4;
                         0x1.999999999999ap-4]]%float))
  = (Ok 2%positive,
     <[2%positive := NdArray 3 [[-1; -1; -1]]%float]>
       (store1 (NdArray 3 [[0x1.999999999999ap-4; 0x1.999999999999ap-4;
                            0x1.999999999999ap-4]]%float))).
Proof. vm_compute. reflexivity. Qed.

(** Sums of zeros are zero, in every order of summation, and so are the
    variance and the standard deviation of a row whose deviations are
    zero. *)
Section ZeroRows.
Context {F : Type} `{Float64 F}.
Hypothesis Hzero : f_is_zero f_zero = true.
Hypothesis Hadd : ∀ x y,
  f_is_zero x = true → f_is_zero y = true → f_is_zero (f_add x y) = true.
Hypothesis Hmul : ∀ x, f_is_zero x = true → f_is_zero (f_mul x x) = true.
Hypothesis Hsqrt : ∀ x, f_is_zero x = true → f_is_zero (f_sqrt x) = true.

Abbreviation zeros := (Forall (λ t, f_is_zero t = true)).

Lemma fold_left_zeros (v : list F) (z : F) :
  zeros v → f_is_zero z = true → f_is_zero (fold_left f_add v z) = true.
Proof.
  intros Hv. revert z. induction Hv as [|t v Ht _ IH]; intros z Hz; [done|].
  simpl. apply IH. by apply Hadd.
Qed.

Lemma zip_add_zeros (v w : list F) :
  zeros v → zeros w → zeros (zip_with f_add v w).
Proof.
  intros Hv. revert w. induction Hv as [|t v Ht _ IH]; intros w Hw; [done|].
  destruct Hw as [|u w Hu Hw]; [done|]. simpl. constructor; [|by apply IH].
  by apply Hadd.
Qed.

Lemma tree8_zeros (r : list F) : zeros r → f_is_zero (tree8 r) = true.
Proof.
  intros Hr.
  destruct r as [|r0 [|r1 [|r2 [|r3 [|r4 [|r5 [|r6 [|r7 [|r8 r]]]]]]]]];
    try exact Hzero.
  repeat match goal with
         | Hr : zeros (_ :: _) |- _ => apply Forall_cons in Hr as [? Hr]
         end.
  simpl. repeat apply Hadd; done.
Qed.

Lemma add_blocks_zeros (n : nat) : ∀ v r : list F,
  length v ≤ n → zeros v → zeros r →
  zeros (add_blocks r v).1 ∧ zeros (add_blocks r v).2.
Proof.
  induction n as [|n IH]; intros v r Hn Hv Hr.
  { destruct v; [done|simpl in Hn; lia]. }
  destruct v as [|a0 [|a1 [|a2 [|a3 [|a4 [|a5 [|a6 [|a7 v]]]]]]]];
    try done.
  cbn [add_blocks]. apply IH.
  - simpl in Hn. lia.
  - by do 8 apply Forall_cons in Hv as [_ Hv].
  - apply zip_add_zeros; [done|].
    repeat match goal with
           | Hv : zeros (_ :: _) |- _ => apply Forall_cons in Hv as [? Hv]
           end.
    repeat constructor; done.
Qed.

Lemma block_sum_zeros (v : list F) :
  zeros v → f_is_zero (block_sum v) = true.
Proof.
  intros Hv.
  destruct v as [|a0 [|a1 [|a2 [|a3 [|a4 [|a5 [|a6 [|a7 v]]]]]]]];
    try (by apply fold_left_zeros).
  cbn [block_sum].
  destruct (add_blocks_zeros (length v) v [a0; a1; a2; a3; a4; a5; a6; a7])
    as [Hr Hrest]; [done| | |].
  - by do 8 apply Forall_cons in Hv as [_ Hv].
  - repeat match goal with
           | Hv : zeros (_ :: _) |- _ => apply Forall_cons in Hv as [? Hv]
           end.
    repeat constructor; done.
  - apply fold_left_zeros; [done|]. by apply tree8_zeros.
Qed.

Lemma np_sum_zeros (v : list F) : zeros v → f_is_zero (np_sum v) = true.
Proof.
  unfold np_sum, pairwise_sum. generalize (length v) at 1. intros fuel.
  revert v. induction fuel as [|fuel IH]; intros v Hv;
    cbn [pairwise_sum_rec]; [by apply block_sum_zeros|].
  destruct (decide _); [by apply block_sum_zeros|].
  apply Hadd; apply IH.
  - by apply Forall_take.
  - by apply Forall_drop.
Qed.

(** A row whose entries all have the deviation zero from the mean. *)
Lemma np_std_zero (r : list F) :
  zeros (vsub r (np_mean r)) →
  (∀ z, f_is_zero z = true →
        f_is_zero (f_div z (f_of_nat (length r))) = true) →
  f_is_zero (np_std r) = true.
Proof.
  intros Hdev Hcount. unfold np_std, np_var. apply Hsqrt, Hcount.
  apply np_sum_zeros. apply Forall_fmap.
  eapply Forall_impl; [exact Hdev|]. intros t Ht. by apply Hmul.
Qed.
End ZeroRows.

(** The arithmetic of zeros in binary64. *)
Lemma b64_is_zero (z : float) :
  PrimFloat.is_zero z = true ↔ ∃ s, Prim2SF z = S754_zero s.
Proof.
  assert (Prim2SF zero = S754_zero false) as Hzero by reflexivity.
  unfold PrimFloat.is_zero. rewrite FloatAxioms.eqb_spec, Hzero. split.
  - intros Hz. destruct (Prim2SF z) as [s|s| |s mz ez]; [by exists s|..];
      try destruct s; done.
  - intros [s ->]. by destruct s.
Qed.

Lemma b64_add_zeros (x y : float) :
  PrimFloat.is_zero x = true → PrimFloat.is_zero y = true →
  PrimFloat.is_zero (x + y) = true.
Proof.
  rewrite !b64_is_zero. intros [sx Hx] [sy Hy].
  rewrite add_spec, Hx, Hy. destruct sx, sy; by eexists.
Qed.

Lemma b64_mul_zeros (x : float) :
  PrimFloat.is_zero x = true → PrimFloat.is_zero (x * x) = true.
Proof.
  rewrite !b64_is_zero. intros [sx Hx].
  rewrite mul_spec, Hx. by eexists.
Qed.

Lemma b64_sqrt_zero (x : float) :
  PrimFloat.is_zero x = true → PrimFloat.is_zero (PrimFloat.sqrt x) = true.
Proof.
  rewrite !b64_is_zero. intros [sx Hx].
  rewrite sqrt_spec, Hx. by eexists.
Qed.

Lemma b64_zero_div (z y : float) :
  (∃ s m e, Prim2SF y = S754_finite s m e) →
  PrimFloat.is_zero z = true → PrimFloat.is_zero (z / y) = true.
Proof.
  rewrite !b64_is_zero. intros (s & m & e & Hy) [sz Hz].
  rewrite div_spec, Hz, Hy. by eexists.
Qed.

(** C5, amended. [snv] never raises and returns a matrix of the shape of
    its input; a row whose computed standard deviation is exactly zero
    comes out with no finite entry (NaN or an infinity), and a constant row
    is such a row when its mean is computed without rounding, so that all
    its deviations are zero (as for [1, 1, 1]; the mean of [0.1, 0.1, 0.1]
    is rounded and the row comes out finite). [msc] returns, when every fit
    succeeds, a matrix of the shape of its input; a constant row whose mean
    is computed without rounding is all zeros once centered, and a row
    whose fitted slope is exactly zero comes out with no finite entry. (For
    any arithmetic with the zeros of IEEE-754, as binary64 has.) *)
Theorem zero_denominator_rows {F} `{Float64 F} `{Lapack F}
    (σ : heap F) (l : loc) (a : ndarray F) (reference : option (list F)) :
  (∀ x z, f_is_zero z = true → f_is_finite (f_div x z) = false) →
  f_is_zero f_zero = true →
  (∀ x y, f_is_zero x = true → f_is_zero y = true →
          f_is_zero (f_add x y) = true) →
  (∀ x, f_is_zero x = true → f_is_zero (f_mul x x) = true) →
  (∀ x, f_is_zero x = true → f_is_zero (f_sqrt x) = true) →
  (∀ z, f_is_zero z = true →
        f_is_zero (f_div z (f_of_nat (ncols a))) = true) →
  σ !! l = Some a →
  rect a →
  let not_finite out := Forall (λ t, f_is_finite t = false) out in
  let exact_mean c :=
    f_is_zero (f_sub c (np_mean (replicate (ncols a) c))) = true in
  returns (snv l σ) (λ a',
    shape a' = shape a ∧ rect a'
    ∧ (∀ i r, rows a !! i = Some r → f_is_zero (np_std r) = true →
         ∃ out, rows a' !! i = Some out ∧ not_finite out)
    ∧ (∀ i c, rows a !! i = Some (replicate (ncols a) c) → exact_mean c →
         ∃ out, rows a' !! i = Some out ∧ not_finite out))
  ∧ (∀ i c, rows a !! i = Some (replicate (ncols a) c) → exact_mean c →
       ∃ z, f_is_zero z = true
            ∧ rows (center_rows a) !! i = Some (replicate (ncols a) z))
  ∧ (Forall (λ c, is_ok (polyfit (msc_reference a reference) c) = true)
       (rows (center_rows a)) →
     returns (msc l reference σ) (λ a',
       shape a' = shape a ∧ rect a'
       ∧ ∀ i c fit,
           rows (center_rows a) !! i = Some c →
           polyfit (msc_reference a reference) c = Ok fit →
           f_is_zero fit.1 = true →
           ∃ out, rows a' !! i = Some out ∧ not_finite out)).
Proof.
  intros Hdiv Hzero Hadd Hmul Hsqrt Hcount Hl Ha not_finite exact_mean.
  assert (∀ i r, rows a !! i = Some r → f_is_zero (np_std r) = true →
            ∃ out, rows (snv_spec a) !! i = Some out ∧ not_finite out)
    as Hstd.
  { intros i r Hi Hz. exists (snv_row r). split.
    - simpl. by rewrite list_lookup_fmap, Hi.
    - unfold not_finite, snv_row, vdiv. apply Forall_fmap, Forall_forall.
      intros t _. simpl. by apply Hdiv. }
  split_and!.
  - rewrite (snv_run _ _ _ Hl). exists (fresh (dom σ)), (snv_spec a). simpl.
    rewrite lookup_insert_eq.
    destruct (snv_spec_shape a Ha) as [Hs Hr]. split_and!; try done.
    intros i c Hi Hc. apply (Hstd i _ Hi).
    apply np_std_zero; try done.
    + unfold vsub. rewrite fmap_replicate. by apply Forall_replicate.
    + by rewrite length_replicate.
  - intros i c Hi Hc. eexists. split; [exact Hc|]. simpl.
    rewrite list_lookup_fmap, Hi. simpl. unfold vsub.
    by rewrite fmap_replicate.
  - intros Hfit. pose proof (msc_outcome σ l a reference Hl) as Hout.
    assert (∃ a', msc_spec a reference = Ok a') as [a' Hspec].
    { unfold msc_spec.
      destruct (res_map_ok (msc_row (msc_reference a reference))
                  (rows (center_rows a))) as [rs ->]; [|simpl; eauto].
      eapply Forall_impl; [exact Hfit|]. intros c Hc. cbv beta in Hc.
      unfold msc_row. by destruct (polyfit _ c). }
    rewrite Hspec in Hout. destruct Hout as (l0 & b & Hl0 & Hb & ->).
    exists l0, a'. split_and!; [done|done|..].
    + by eapply msc_spec_shape.
    + by eapply msc_spec_shape.
    + intros i c fit Hi Hfit' Hz. unfold msc_spec in Hspec.
      destruct (res_map _ _) as [rs|] eqn:Hrs; simpl in Hspec; [|done].
      injection Hspec as <-. simpl.
      destruct (res_map_lookup _ _ _ _ _ Hrs Hi) as (out & Hrow & Hout).
      exists out. split; [done|]. unfold msc_row in Hrow.
      rewrite Hfit' in Hrow. simpl in Hrow. injection Hrow as <-.
      unfold not_finite, vdiv. apply Forall_fmap, Forall_forall.
      intros t _. simpl. by apply Hdiv.
Qed.

Lemma zero_denominator_rows_witness :
  returns (snv 1%positive (store1 sample_b64)) (λ a',
    shape a' = (2, 3)
    ∧ ∃ out, rows a' !! 1 = Some out
             ∧ Forall (λ t, PrimFloat.is_finite t = false) out).
Proof.
  destruct (zero_denominator_rows (store1 sample_b64) 1%positive sample_b64
              None)
    as [(l & a' & Hl & Ha' & Hs & _ & _ & Hrows) _].
  - exact b64_div_zero.
  - reflexivity.
  - exact b64_add_zeros.
  - exact b64_mul_zeros.
  - exact b64_sqrt_zero.
  - intros z. apply b64_zero_div. eexists _, _, _. vm_compute. reflexivity.
  - reflexivity.
  - repeat constructor.
  - exists l, a'. split_and!; [done|done|done|].
    apply (Hrows 1 1%float); [reflexivity|]. vm_compute. reflexivity.
Defined.

(** ** Constant rows in exact arithmetic *)

(** Without rounding, the mean of a constant row is its value, the
    deviations and the standard deviation are 0, and [snv] returns NaN in
    every entry of the row. *)
Lemma snv_row_constant_exact (c : R) (n : nat) :
  0 < n → snv_row (replicate n (Fin c)) = replicate n NaN.
Proof.
  intros Hn. rewrite replicate_fin.
  assert (replicate n c ≠ []) as Hne by (destruct n; [lia|done]).
  assert (rmean (replicate n c) = c) as Hmean.
  { unfold rmean. rewrite <- (fmap_replicate (λ _ : R, c) n 0%R).
    rewrite (rsum_const c (replicate n 0%R)).
    rewrite length_fmap, length_replicate. field.
    apply not_0_INR. lia. }
  assert (rvar (replicate n c) = 0%R) as Hvar.
  { unfold rvar. rewrite Hmean.
    rewrite (rsum_ext _ (λ _, 0%R)).
    - rewrite (rsum_const 0%R). unfold Rdiv. lra.
    - intros t Ht. apply elem_of_replicate in Ht as [-> _]. lra. }
  unfold snv_row. rewrite np_mean_fin, np_std_fin by done.
  unfold rstd. rewrite Hmean, Hvar, sqrt_0, vsub_fin.
  unfold vdiv. rewrite <- !list_fmap_compose, !fmap_replicate. simpl.
  f_equal. rewrite decide_True by done. rewrite decide_True by lra. done.
Qed.

(** When every row is constant the computed reference is the zero vector:
    its column of the least-squares system is 0/0, and [np.polyfit] raises
    instead of returning non-finite values. *)
Lemma msc_constant_matrix_raises :
  (msc 1%positive None (store1 (fin_matrix 3 [[1; 1; 1]]%R))).1
  = Err (LinAlgError "SVD did not converge in Linear Least Squares").
Proof.
  pose proof (msc_outcome (store1 (fin_matrix 3 [[1; 1; 1]]%R)) 1%positive
                (fin_matrix 3 [[1; 1; 1]]%R) None
                (lookup_singleton_eq _ _)) as Hout.
  assert (msc_spec (fin_matrix 3 [[1; 1; 1]]%R) None
          = Err (LinAlgError "SVD did not converge in Linear Least Squares"))
    as Hspec; [|by rewrite Hspec in Hout].
  unfold msc_spec, msc_reference.
  rewrite center_rows_fin, mean_axis0_fin by done.
  change (rows (fin_matrix 3 (rcenter <$> [[1; 1; 1]%R])))
    with [Fin <$> rcenter [1; 1; 1]%R].
  cbn [res_map]. unfold msc_row at 1.
  rewrite polyfit_fin_zero; [done|done|done|].
  assert (rmean [1; 1; 1]%R = 1%R) as Hmean
    by (unfold rmean, rsum; simpl; field).
  assert (rcenter [1; 1; 1]%R = [0; 0; 0]%R) as Hc.
  { unfold rcenter. rewrite Hmean. simpl. repeat f_equal; lra. }
  change (rcenter <$> [[1; 1; 1]%R]) with [rcenter [1; 1; 1]%R].
  rewrite Hc.
  assert (rcolumn_means 3 [[0; 0; 0]%R] = [0; 0; 0]%R) as ->.
  { unfold rcolumn_means, rcolumn, rmean, rsum. simpl.
    repeat f_equal; field. }
  unfold rdot, rsum. simpl. lra.
Qed.

(** ** Runs on the machine's numbers *)

(** The boundary modes on the row [1, 2, 3] with a flat window of 3: the
    edges take the mirrored neighbour under "reflect" and 0.0 under
    "constant". *)
Lemma smooth_reflect_and_constant_edges :
  smooth 1%positive 3 "flat" "reflect" (store1 (NdArray 3 [[1; 2; 3]]%float))
  = (Ok 1%positive,
     store1 (NdArray 3 [[0x1.5555555555555p+0; 2;
                         0x1.5555555555555p+1]]%float))
  ∧ smooth 1%positive 3 "flat" "constant"
      (store1 (NdArray 3 [[1; 2; 3]]%float))
    = (Ok 1%positive,
       store1 (NdArray 3 [[1; 2; 0x1.aaaaaaaaaaaaap+0]]%float)).
Proof. split; vm_compute; reflexivity. Qed.

(** A window of one sample gives the rows back in binary64 too. *)
Lemma smooth_unit_window_b64 :
  smooth 1%positive 1 "flat" "mirror" (store1 sample_b64)
  = (Ok 1%positive, store1 sample_b64).
Proof. vm_compute. reflexivity. Qed.

(** A constant row whose mean is exact, [1, 1, 1]: [snv] gives NaN in
    every entry of it. *)
Lemma snv_exact_constant_row_b64 :
  (snv 1%positive (store1 sample_b64)).2 !! 2%positive
  = Some (NdArray 3 [[-0x1.3988e1409212ep+0; 0; 0x1.3988e1409212ep+0];
                     [nan; nan; nan]]%float).
Proof. vm_compute. reflexivity. Qed.

(** * Further properties of the four transforms *)

(** ** Matrices without rows or without channels *)

(** X1. On a matrix without rows the loops never run: [msc] and [snv]
    return an empty matrix of the same width, whatever the reference, and
    [smooth] returns its input for every mode, known or not, as long as
    the window itself can be built: the flat window of any length from 0,
    a window of SciPy of any length from 1. *)
Theorem no_rows_nothing_to_do {F} `{Float64 F} `{Lapack F} `{SciPy F}
    (σ : heap F) (l : loc) (a : ndarray F) (reference : option (list F))
    (filter_win : Z) (window_type mode : string) :
  σ !! l = Some a →
  rows a = [] →
  returns (msc l reference σ) (λ a', a' = a)
  ∧ returns (snv l σ) (λ a', a' = a)
  ∧ (((0 ≤ filter_win)%Z ∧ window_type = "flat"%string)
     ∨ ((1 ≤ filter_win)%Z ∧ known_window window_type) →
     smooth l filter_win window_type mode σ = (Ok l, σ)).
Proof.
  intros Hl Hrows.
  assert (NdArray (ncols a) [] = a) as Heta
    by (rewrite <- Hrows; apply ndarray_eta).
  split_and!.
  - pose proof (msc_outcome σ l a reference Hl) as Hout.
    unfold msc_spec, center_rows in Hout. rewrite Hrows in Hout.
    simpl in Hout. by rewrite Heta in Hout.
  - rewrite (snv_run _ _ _ Hl). eexists _, _. simpl.
    rewrite lookup_insert_eq. split_and!; [done|done|].
    unfold snv_spec. by rewrite Hrows.
  - intros Hw. rewrite (smooth_run _ _ _ _ _ _ Hl). unfold smooth_spec.
    assert (∃ w, smooth_window filter_win window_type = Ok w) as [w ->].
    { destruct Hw as [[Hf ->]|[Hf Hk]].
      - destruct (smooth_window_flat filter_win Hf) as (w & -> & _). eauto.
      - destruct (smooth_window_ok filter_win window_type Hf Hk)
          as (w & -> & _). eauto. }
    rewrite Hrows. simpl. rewrite Heta. by rewrite insert_id.
Qed.

Lemma no_rows_nothing_to_do_witness :
  returns (msc 1%positive None (store1 (NdArray 3 [])))
    (λ a' : ndarray float, a' = NdArray 3 [])
  ∧ smooth 1%positive 0 "flat" "no such mode" (store1 (NdArray 3 []))
    = (Ok 1%positive, store1 (NdArray 3 [] : ndarray float)).
Proof.
  destruct (no_rows_nothing_to_do (store1 (NdArray 3 [] : ndarray float))
              1%positive (NdArray 3 []) None 0 "flat" "no such mode")
    as (Hmsc & _ & Hsmooth).
  - reflexivity.
  - reflexivity.
  - split; [exact Hmsc|]. apply Hsmooth. left. split; [lia|done].
Defined.

(** X2. On a matrix with rows but no channels, [msc] without a reference
    (or with the empty one) cannot fit: the first [np.polyfit] raises
    [TypeError] for its empty [x], and the caller's arrays are untouched. *)
Theorem msc_no_channels_raises {F} `{Float64 F} `{Lapack F}
    (σ : heap F) (l : loc) (a : ndarray F) (reference : option (list F)) :
  σ !! l = Some a →
  ncols a = 0 →
  rows a ≠ [] →
  reference = None ∨ reference = Some [] →
  (msc l reference σ).1
  = Err (TypeError "expected non-empty vector for x")
  ∧ preserves σ (msc l reference σ).
Proof.
  intros Hl Hcols Hrows Href. split; [|by eapply msc_preserves].
  pose proof (msc_outcome σ l a reference Hl) as Hout.
  assert (msc_reference a reference = []) as Hempty.
  { destruct Href as [-> | ->]; [|done].
    unfold msc_reference, mean_axis0. simpl. by rewrite Hcols. }
  unfold msc_spec in Hout. rewrite Hempty in Hout.
  destruct (rows a) as [|r rs] eqn:Hr; [done|].
  unfold center_rows in Hout. rewrite Hr in Hout. simpl in Hout.
  exact Hout.
Qed.

Lemma msc_no_channels_raises_witness :
  (msc 1%positive None (store1 (NdArray 0 [[]; []] : ndarray float))).1
  = Err (TypeError "expected non-empty vector for x").
Proof.
  apply (msc_no_channels_raises _ _ (NdArray 0 [[]; []])).
  - reflexivity.
  - reflexivity.
  - done.
  - by left.
Defined.

(** ** Calls repeated on the same array *)

(** X4. Calls repeated on one array compose through the store. A second
    [smooth] works on what the first one wrote: the array ends up smoothed
    twice and the caller's data are gone. A second [snv] on the same input
    reads the same data again and returns another array with the same
    contents as the first. *)
Theorem repeated_calls {F} `{Float64 F} `{SciPy F}
    (σ : heap F) (l : loc) (a a1 a2 : ndarray F)
    (win1 win2 : Z) (type1 type2 mode1 mode2 : string) :
  σ !! l = Some a →
  smooth_spec a win1 type1 mode1 = Ok a1 →
  smooth_spec a1 win2 type2 mode2 = Ok a2 →
  (∃ σ1, smooth l win1 type1 mode1 σ = (Ok l, σ1)
         ∧ smooth l win2 type2 mode2 σ1 = (Ok l, <[l := a2]> σ))
  ∧ ∃ l1 σ1 l2 σ2,
      snv l σ = (Ok l1, σ1) ∧ snv l σ1 = (Ok l2, σ2) ∧ l1 ≠ l2
      ∧ σ2 !! l = Some a
      ∧ σ2 !! l1 = Some (snv_spec a) ∧ σ2 !! l2 = Some (snv_spec a).
Proof.
  intros Hl H1 H2. split.
  - exists (<[l := a1]> σ). split.
    + by rewrite (smooth_run _ _ _ _ _ _ Hl), H1.
    + rewrite (smooth_run _ _ a1) by apply lookup_insert_eq.
      by rewrite H2, insert_insert_eq.
  - set (l1 := fresh (dom σ)). set (σ1 := <[l1 := snv_spec a]> σ).
    assert (l ≠ l1) as Hne by (by eapply fresh_ne).
    assert (σ1 !! l = Some a) as Hl1
      by (unfold σ1; by rewrite lookup_insert_ne).
    assert (l1 ≠ fresh (dom σ1)) as Hne2.
    { apply (fresh_ne σ1 l1 (snv_spec a)). apply lookup_insert_eq. }
    exists l1, σ1, (fresh (dom σ1)), (<[fresh (dom σ1) := snv_spec a]> σ1).
    split_and!.
    + by apply snv_run.
    + by apply snv_run.
    + done.
    + rewrite lookup_insert_ne; [done|]. intros Heq.
      pose proof (fresh_lookup σ1) as Hf. rewrite Heq in Hf. congruence.
    + rewrite lookup_insert_ne by done. apply lookup_insert_eq.
    + apply lookup_insert_eq.
Qed.

Lemma repeated_calls_witness :
  ∃ σ1, smooth 1%positive 3 "flat" "reflect"
          (store1 (NdArray 3 [[1; 2; 3]]%float)) = (Ok 1%positive, σ1)
        ∧ smooth 1%positive 3 "flat" "constant" σ1
          = (Ok 1%positive,
             store1 (NdArray 3 [[0x1.1c71c71c71c72p+0; 2;
                                 0x1.8e38e38e38e38p+0]]%float)).
Proof.
  destruct (repeated_calls (store1 (NdArray 3 [[1; 2; 3]]%float)) 1%positive
              (NdArray 3 [[1; 2; 3]]%float)
              (NdArray 3 [[0x1.5555555555555p+0; 2;
                           0x1.5555555555555p+1]]%float)
              (NdArray 3 [[0x1.1c71c71c71c72p+0; 2;
                           0x1.8e38e38e38e38p+0]]%float)
              3 3 "flat" "flat" "reflect" "constant")
    as [(σ1 & Hs1 & Hs2) _].
  - reflexivity.
  - vm_compute. reflexivity.
  - vm_compute. reflexivity.
  - exists σ1. split; [exact Hs1|]. rewrite Hs2. vm_compute. reflexivity.
Defined.

(** ** Rows rescaled and shifted *)

Section Affine.
Local Open Scope R_scope.
Implicit Types (v x y : list R) (k d c : R).

Lemma length_affine k d v : length (affine k d v) = length v.
Proof. apply length_fmap. Qed.

Lemma rsum_affine k d v :
  rsum (affine k d v) = k * rsum v + INR (length v) * d.
Proof.
  unfold affine.
  rewrite (rsum_plus (λ t, k * t) (λ _, d)), (rsum_scale (λ t, t)).
  by rewrite rsum_id, rsum_const.
Qed.

Lemma rmean_affine k d v :
  v ≠ [] → rmean (affine k d v) = k * rmean v + d.
Proof.
  intros Hne. unfold rmean. rewrite rsum_affine, length_affine.
  field. pose proof (INR_length_pos v Hne). lra.
Qed.

End Affine.

(** ** Spectra that are the reference up to gain and offset *)

Section Recover.
Local Open Scope R_scope.
Implicit Types (v x y ref : list R) (k d c : R).

Lemma rdot_affine_r k d x y :
  length x = length y →
  rdot x (affine k d y) = k * rdot x y + d * rsum x.
Proof.
  revert y. induction x as [|a x IH]; intros [|b y] Hlen; try done.
  - rewrite !rdot_nil_l, rsum_nil. ring.
  - unfold affine in *. rewrite fmap_cons, !rdot_cons, rsum_cons, IH.
    + ring.
    + simpl in Hlen. lia.
Qed.

(** A vector with spread is not constant, and not zero. *)
Lemma spread_independent x :
  rvar x ≠ 0 →
  x ≠ [] ∧ rdot x x ≠ 0 ∧ INR (length x) * rdot x x ≠ rsum x * rsum x.
Proof.
  intros Hvar.
  assert (x ≠ []) as Hne by (intros ->; by rewrite rvar_nil in Hvar).
  pose proof (INR_length_pos x Hne) as Hn.
  assert (INR (length x) * rdot x x ≠ rsum x * rsum x) as Hdet.
  { intros Hcs. apply Hvar. unfold rvar.
    rewrite (rsum_ext _ (λ _, 0)).
    - rewrite rsum_const. unfold Rdiv. ring.
    - intros t Ht. pose proof (constant_vector x Hcs t Ht) as Ht'.
      unfold rmean.
      replace (t - rsum x / INR (length x))
        with ((INR (length x) * t - rsum x) / INR (length x))
        by (field; lra).
      rewrite Ht'. unfold Rdiv. ring. }
  split_and!; [done| |done].
  intros Hz. apply Hdet. rewrite Hz.
  assert (rsum x = 0) as ->; [|ring].
  rewrite <- rdot_self in Hz.
  pose proof (rsum_squares_zero (λ t, t) x Hz) as Hall.
  rewrite <- rsum_id, (rsum_ext _ (λ _, 0)) by done.
  rewrite rsum_const. ring.
Qed.

(** The fit of [k * x + d] against [x] is the line itself. *)
Lemma rpolyfit_exact k d x :
  rvar x ≠ 0 → rpolyfit x (affine k d x) = (k, d).
Proof.
  intros Hvar. destruct (spread_independent x Hvar) as (Hne & Hxx & Hdet).
  destruct (rpolyfit_normal x (affine k d x)) as [H1 H2];
    [done|by rewrite length_affine|done|].
  rewrite rdot_affine_r in H1 by done. rewrite rsum_affine in H2.
  destruct (rpolyfit x (affine k d x)) as [s i]. simpl in H1, H2.
  set (n := INR (length x)) in *.
  assert ((s - k) * (n * rdot x x - rsum x * rsum x) = 0) as Hs.
  { replace ((s - k) * (n * rdot x x - rsum x * rsum x))
      with (n * (s * rdot x x + i * rsum x)
            - rsum x * (s * rsum x + i * n)
            - k * (n * rdot x x - rsum x * rsum x)) by ring.
    rewrite H1, H2. ring. }
  apply Rmult_integral in Hs as [Hs|Hs]; [|lra].
  assert (s = k) as -> by lra.
  assert (i * n = n * d) as Hi by lra.
  pose proof (INR_length_pos x Hne) as Hn. fold n in Hn.
  f_equal. apply (Rmult_eq_reg_r n); lra.
Qed.

Lemma msc_row_recovers k d ref :
  rvar ref ≠ 0 → k ≠ 0 →
  msc_row (Fin <$> ref) (Fin <$> rcenter (affine k d ref))
  = Ok (Fin <$> ref).
Proof.
  intros Hvar Hk. destruct (spread_independent ref Hvar) as (Hne & Hxx & _).
  assert (rcenter (affine k d ref) = affine k (- k * rmean ref) ref) as ->.
  { unfold rcenter. rewrite rmean_affine by done.
    unfold affine. rewrite <- !list_fmap_compose.
    apply list_fmap_ext. intros _ t _. simpl. ring. }
  unfold msc_row.
  rewrite polyfit_fin by (by rewrite ?length_affine).
  rewrite rpolyfit_exact by done. simpl. f_equal.
  unfold vdiv, vsub, affine. rewrite <- !list_fmap_compose.
  apply list_fmap_ext. intros _ t _. simpl.
  rewrite decide_False by done. f_equal. by field.
Qed.

Lemma msc_spec_recovers (n : nat) ref (kd : list (R * R)) :
  rvar ref ≠ 0 →
  Forall (λ p, p.1 ≠ 0) kd →
  msc_spec (fin_matrix n ((λ p, affine p.1 p.2 ref) <$> kd))
    (Some (Fin <$> ref))
  = Ok (fin_matrix n ((λ _, ref) <$> kd)).
Proof.
  intros Hvar Hkd. unfold msc_spec. rewrite center_rows_fin.
  cbn [msc_reference fin_matrix rows ncols].
  assert (res_map (msc_row (Fin <$> ref))
            ((λ r : list R, Fin <$> r)
               <$> (rcenter <$> ((λ p, affine p.1 p.2 ref) <$> kd)))
          = Ok ((λ r : list R, Fin <$> r) <$> ((λ _, ref) <$> kd))) as ->;
    [|done].
  induction Hkd as [|[k d] kd Hk _ IH]; [done|].
  cbn [fmap list_fmap res_map fst snd] in *.
  rewrite msc_row_recovers by done. simpl. by rewrite IH.
Qed.
End Recover.

(** X7. When every spectrum is the reference up to a gain and an offset,
    [k_i * ref + d_i] with [k_i] not 0, and the reference given by the
    caller is not constant, [msc] returns the reference in every row (in
    exact arithmetic). *)
Theorem msc_recovers_reference (σ : heap xreal) (l : loc) (n : nat)
    (ref : list R) (kd : list (R * R)) :
  rvar ref ≠ 0%R →
  Forall (λ p, p.1 ≠ 0%R) kd →
  σ !! l = Some (fin_matrix n ((λ p, affine p.1 p.2 ref) <$> kd)) →
  returns (msc l (Some (Fin <$> ref)) σ)
    (λ a', a' = fin_matrix n ((λ _, ref) <$> kd)).
Proof.
  intros Hvar Hkd Hl.
  pose proof (msc_outcome σ l _ (Some (Fin <$> ref)) Hl) as Hout.
  by rewrite msc_spec_recovers in Hout.
Qed.

Lemma msc_recovers_reference_witness :
  returns
    (msc 1%positive (Some (Fin <$> [1; 3]%R))
       (store1 (fin_matrix 2 ((λ p, affine p.1 p.2 [1; 3]%R)
                                <$> [(2, 5); (-1, 0)]%R))))
    (λ a', a' = fin_matrix 2 ((λ _, [1; 3]%R) <$> [(2, 5); (-1, 0)]%R)).
Proof.
  apply (msc_recovers_reference _ 1%positive 2 [1; 3]%R
           [(2, 5); (-1, 0)]%R).
  - rewrite rvar_1_3. lra.
  - repeat constructor; simpl; lra.
  - apply lookup_singleton_eq.
Defined.

(** ** Smoothing away from the edges *)

Section Interior.
Context {F : Type} `{Float64 F} `{SciPy F}.

Lemma fold_left_ext_in {A B} (f g : B → A → B) (l : list A) (b : B) :
  (∀ acc x, x ∈ l → f acc x = g acc x) →
  fold_left f l b = fold_left g l b.
Proof.
  revert b. induction l as [|x l IH]; intros b Hfg; [done|]. simpl.
  rewrite Hfg by (apply elem_of_cons; by left).
  apply IH. intros acc y Hy. apply Hfg, elem_of_cons. by right.
Qed.

(** Inside the signal the extension is not consulted. *)
Lemma sample_inside m m' (input : list F) (i : Z) :
  (0 ≤ i < Z.of_nat (length input))%Z →
  sample m input i = sample m' input i.
Proof.
  intros Hi. unfold sample, extend_index. by rewrite !decide_True by done.
Qed.

Lemma correlate_point_inside m m' (input fw : list F) (center : Z)
    (i : nat) :
  (∀ j : nat, j < length fw →
     (0 ≤ Z.of_nat i + Z.of_nat j - center < Z.of_nat (length input))%Z) →
  correlate_point m input fw center i = correlate_point m' input fw center i.
Proof.
  intros Hin. unfold correlate_point. apply fold_left_ext_in.
  intros acc [j w] Hjw. apply elem_of_lookup_imap in Hjw as (j' & w' & Heq & Hj).
  injection Heq as -> ->. apply lookup_lt_Some in Hj. simpl.
  by rewrite (sample_inside m m') by auto.
Qed.

(** Half a window away from both ends of the row, the convolution is the
    same in every boundary mode. *)
Lemma nd_convolve_inside (r w out out' : list F) (mode mode' : string)
    (i : nat) :
  nd_convolve r w mode = Ok out →
  nd_convolve r w mode' = Ok out' →
  (Z.of_nat (length w) `div` 2 ≤ Z.of_nat i)%Z →
  (Z.of_nat i + Z.of_nat (length w) `div` 2 < Z.of_nat (length r))%Z →
  out !! i = out' !! i.
Proof.
  unfold nd_convolve. destruct (decide (length w = 0)) as [|Hw]; [done|].
  destruct (extend_mode_to_code mode) as [m|]; [|done].
  destruct (extend_mode_to_code mode') as [m'|]; [|done].
  simpl. intros [= <-] [= <-] Hlo Hhi.
  rewrite !list_lookup_fmap.
  destruct (seq 0 (length r) !! i) as [k|] eqn:Hk; [|done].
  apply lookup_seq in Hk as [-> _].
  simpl. f_equal. apply correlate_point_inside.
  intros j Hj. rewrite length_reverse in Hj.
  set (size := Z.of_nat (length w)) in *.
  assert (0 ≤ Z.of_nat j < size)%Z as Hj' by (unfold size; lia).
  rewrite Zeven_mod. clear -Hlo Hhi Hj'.
  destruct (Z.eqb_spec (size `mod` 2) 0) as [He|He]; cbv iota;
    Z.div_mod_to_equations; lia.
Qed.
End Interior.

(** X9. The boundary mode of [smooth] matters at the edges only: with the
    same window, the entries at least half a window away from both ends of
    a row are the same in every mode. *)
Theorem smooth_interior_mode_independent {F} `{Float64 F} `{SciPy F}
    (σ : heap F) (l : loc) (a : ndarray F) (filter_win : Z)
    (window_type mode mode' : string) :
  σ !! l = Some a →
  (1 ≤ filter_win)%Z →
  known_window window_type →
  known_mode mode → known_mode mode' →
  ∃ a1 a2,
    smooth l filter_win window_type mode σ = (Ok l, <[l := a1]> σ)
    ∧ smooth l filter_win window_type mode' σ = (Ok l, <[l := a2]> σ)
    ∧ ∀ (r i : nat) row1 row2,
        rows a1 !! r = Some row1 → rows a2 !! r = Some row2 →
        (filter_win `div` 2 ≤ Z.of_nat i)%Z →
        (Z.of_nat i + filter_win `div` 2 < Z.of_nat (length row1))%Z →
        row1 !! i = row2 !! i.
Proof.
  intros Hl Hf Hk Hm Hm'.
  rewrite !(smooth_run _ _ _ _ _ _ Hl). unfold smooth_spec.
  destruct (smooth_window_ok filter_win window_type) as (w & -> & Hw);
    [lia|done|]. simpl.
  destruct (extend_mode_known _ Hm) as [m Hmode].
  destruct (extend_mode_known _ Hm') as [m' Hmode'].
  destruct (res_map_ok (λ r, nd_convolve r w mode) (rows a)) as [rs Hrs].
  { apply Forall_forall. intros r _. unfold nd_convolve.
    rewrite decide_False by lia. by rewrite Hmode. }
  destruct (res_map_ok (λ r, nd_convolve r w mode') (rows a)) as [rs' Hrs'].
  { apply Forall_forall. intros r _. unfold nd_convolve.
    rewrite decide_False by lia. by rewrite Hmode'. }
  rewrite Hrs, Hrs'. simpl. eexists _, _. split_and!; [done..|].
  simpl. intros r i row1 row2 H1 H2 Hlo Hhi.
  apply res_map_Forall2 in Hrs, Hrs'.
  destruct (Forall2_lookup_r _ _ _ _ _ Hrs H1) as (x & Hx & Hc).
  destruct (Forall2_lookup_r _ _ _ _ _ Hrs' H2) as (x' & Hx' & Hc').
  rewrite Hx in Hx'. injection Hx' as <-.
  pose proof (length_nd_convolve _ _ _ _ Hc) as Hlen.
  apply (nd_convolve_inside x w row1 row2 mode mode' i); [done..| |];
    rewrite Hw, Z2Nat.id by lia; [done|]. by rewrite <- Hlen.
Qed.

Lemma smooth_interior_mode_independent_witness :
  ∃ a1 a2 : ndarray float,
    smooth 1%positive 3 "flat" "reflect"
      (store1 (NdArray 3 [[1; 2; 3]]%float))
    = (Ok 1%positive,
       <[1%positive := a1]> (store1 (NdArray 3 [[1; 2; 3]]%float)))
    ∧ smooth 1%positive 3 "flat" "constant"
        (store1 (NdArray 3 [[1; 2; 3]]%float))
      = (Ok 1%positive,
         <[1%positive := a2]> (store1 (NdArray 3 [[1; 2; 3]]%float)))
    ∧ ∀ (r i : nat) row1 row2,
        rows a1 !! r = Some row1 → rows a2 !! r = Some row2 →
        (3 `div` 2 ≤ Z.of_nat i)%Z →
        (Z.of_nat i + 3 `div` 2 < Z.of_nat (length row1))%Z →
        row1 !! i = row2 !! i.
Proof.
  apply (smooth_interior_mode_independent
           (store1 (NdArray 3 [[1; 2; 3]]%float)) 1%positive
           (NdArray 3 [[1; 2; 3]]%float) 3 "flat" "reflect" "constant").
  - reflexivity.
  - lia.
  - by left.
  - unfold known_mode. rewrite !elem_of_cons. tauto.
  - unfold known_mode. rewrite !elem_of_cons. tauto.
Defined.

(** ** Smoothing a constant spectrum *)

Section ConstantRows.
Local Open Scope R_scope.

(** The modes that extend a row by its own samples read inside the row. *)
Lemma extend_index_in_range m (len i : Z) :
  m ≠ Constant → (0 < len)%Z →
  ∃ k, extend_index m len i = Some k ∧ (0 ≤ k < len)%Z.
Proof.
  intros Hm Hlen. unfold extend_index.
  destruct (decide (0 ≤ i < len)%Z); [by eauto|].
  destruct m; try done; eexists; (split; [done|]);
    repeat destruct (decide _); Z.div_mod_to_equations; lia.
Qed.

Lemma sample_mode_code mode :
  sample_mode mode → ∃ m, extend_mode_to_code mode = Ok m ∧ m ≠ Constant.
Proof.
  unfold sample_mode. rewrite !elem_of_cons, elem_of_nil.
  intros Hm. destruct_or!; try done; subst mode; by eexists.
Qed.

Lemma sample_constant m (n : nat) (c : R) (i : Z) :
  m ≠ Constant → (0 < n)%nat → sample m (replicate n (Fin c)) i = Fin c.
Proof.
  intros Hm Hn. unfold sample. rewrite length_replicate.
  destruct (extend_index_in_range m (Z.of_nat n) i) as (k & -> & Hk);
    [done|lia|].
  by rewrite lookup_replicate_2 by lia.
Qed.

(** Equal weights [g] over a constant row: every weight in the footprint
    adds [g * c]. *)
Lemma correlate_fold_constant m (n : nat) (c g : R) (center : Z) (i : nat)
    (l : list (nat * xreal)) (a : R) :
  m ≠ Constant → (0 < n)%nat →
  xr_ltb (Fin (/ 2 ^ 52)) (xr_abs (Fin g)) = true →
  Forall (λ jw : nat * xreal, jw.2 = Fin g) l →
  fold_left
    (λ (tmp : xreal) (jw : nat * xreal),
       if f_ltb f_eps (f_abs jw.2)
       then f_add tmp
              (f_mul jw.2
                 (sample m (replicate n (Fin c))
                    (Z.of_nat i + Z.of_nat jw.1 - center)))
       else tmp)
    l (Fin a)
  = Fin (a + INR (length l) * (g * c)).
Proof.
  intros Hm Hn Heps Hall. revert a.
  induction Hall as [|[j w] l Hw _ IH]; intros a.
  - cbn [fold_left length]. f_equal. simpl. ring.
  - cbn [fold_left length]. simpl in Hw. subst w. cbn [snd fst].
    change (f_ltb f_eps (f_abs (Fin g)))
      with (xr_ltb (Fin (/ 2 ^ 52)) (xr_abs (Fin g))).
    rewrite Heps, sample_constant by done.
    change (f_add (Fin a) (f_mul (Fin g) (Fin c))) with (Fin (a + g * c)).
    rewrite IH, S_INR. f_equal. ring.
Qed.

Lemma correlate_point_constant m (n k : nat) (c g : R) (center : Z)
    (i : nat) :
  m ≠ Constant → (0 < n)%nat →
  xr_ltb (Fin (/ 2 ^ 52)) (xr_abs (Fin g)) = true →
  correlate_point m (replicate n (Fin c)) (replicate k (Fin g)) center i
  = Fin (0 + INR k * (g * c)).
Proof.
  intros Hm Hn Heps. unfold correlate_point.
  change (@f_zero xreal XR) with (Fin 0).
  rewrite (correlate_fold_constant m n c g) by
    (try done; apply Forall_forall; intros [j w] Hjw;
     apply elem_of_lookup_imap in Hjw as (j' & w' & Heq & Hj);
     injection Heq as -> ->; by apply lookup_replicate in Hj as [-> _]).
  by rewrite length_imap, length_replicate.
Qed.

Lemma rsum_ones (k : nat) : rsum (replicate k 1) = INR k.
Proof.
  induction k as [|k IH]; [done|].
  cbn [replicate]. rewrite rsum_cons, IH, S_INR. ring.
Qed.

(** Lines 74 and 77: the flat window has [k] weights [1/k]. *)
Lemma flat_window (k : nat) :
  (0 < k)%nat →
  vdiv (replicate k f_one) (np_sum (replicate k f_one))
  = replicate k (Fin (1 / INR k)).
Proof.
  intros Hk. change (@f_one xreal XR) with (Fin 1).
  rewrite replicate_fin, np_sum_fin, rsum_ones.
  rewrite vdiv_fin by (apply not_0_INR; lia).
  by rewrite !fmap_replicate.
Qed.

(** A weight [1/k] is in the footprint as long as [k] is below [2^52]. *)
Lemma flat_weight_counts (k : nat) :
  (0 < k)%nat → (Z.of_nat k < 2 ^ 52)%Z →
  xr_ltb (Fin (/ 2 ^ 52)) (xr_abs (Fin (1 / INR k))) = true.
Proof.
  intros Hk Hlt. unfold xr_ltb, xr_abs. apply bool_decide_eq_true_2.
  assert (0 < INR k) as Hpos by (apply lt_0_INR; lia).
  assert (INR k < 2 ^ 52) as Hbound.
  { rewrite INR_IZR_INZ. change 2 with (IZR 2). rewrite pow_IZR.
    apply IZR_lt. exact Hlt. }
  rewrite Rabs_pos_eq by (apply Rlt_le, Rdiv_lt_0_compat; lra).
  unfold Rdiv. rewrite Rmult_1_l.
  apply Rinv_lt_contravar; [|done]. nra.
Qed.

Lemma nd_convolve_constant (n k : nat) (c : R) (mode : string) :
  sample_mode mode → (0 < k)%nat → (Z.of_nat k < 2 ^ 52)%Z →
  nd_convolve (replicate n (Fin c)) (replicate k (Fin (1 / INR k))) mode
  = Ok (replicate n (Fin c)).
Proof.
  intros Hmode Hk Hlt. unfold nd_convolve.
  rewrite decide_False by (rewrite length_replicate; lia).
  destruct (sample_mode_code mode Hmode) as (m & -> & Hm).
  unfold res_bind. f_equal. rewrite reverse_replicate.
  destruct n as [|n]; [done|].
  rewrite !length_replicate.
  transitivity (replicate (length (seq 0 (S n))) (Fin c));
    [|by rewrite length_seq].
  apply const_fmap. intros _ i _.
  rewrite correlate_point_constant
    by (done || lia || by apply flat_weight_counts).
  f_equal. field. apply not_0_INR. lia.
Qed.
Lemma res_map_constant (n k : nat) (cs : list R) (mode : string) :
  sample_mode mode → (0 < k)%nat → (Z.of_nat k < 2 ^ 52)%Z →
  res_map (λ r, nd_convolve r (replicate k (Fin (1 / INR k))) mode)
    ((λ c, replicate n (Fin c)) <$> cs)
  = Ok ((λ c, replicate n (Fin c)) <$> cs).
Proof.
  intros Hmode Hk Hlt. induction cs as [|c cs IH]; [done|].
  rewrite fmap_cons. cbn [res_map].
  rewrite nd_convolve_constant by done.
  unfold res_bind at 1. by rewrite IH.
Qed.
End ConstantRows.

(** X10. [smooth] with the flat window keeps a constant spectrum as it is,
    in every boundary mode that extends the row by its own samples (all
    but the two that pad with zeros): the normalised weights sum to 1.
    Below [2^52] samples the weights [1 / filter_win] are above
    DBL_EPSILON, which [nd.convolve] asks of a weight to count (in exact
    arithmetic). *)
Theorem smooth_keeps_constant_rows `{SciPy xreal}
    (σ : heap xreal) (l : loc) (n : nat) (cs : list R) (filter_win : Z)
    (mode : string) :
  σ !! l = Some (fin_matrix n ((λ c, replicate n c) <$> cs)) →
  (1 ≤ filter_win < 2 ^ 52)%Z →
  sample_mode mode →
  smooth l filter_win "flat" mode σ = (Ok l, σ).
Proof.
  intros Hl Hf Hm. rewrite (smooth_run σ l _ _ _ _ Hl).
  set (a := fin_matrix n ((λ c, replicate n c) <$> cs)) in *.
  assert (smooth_spec a filter_win "flat" mode = Ok a) as ->.
  { unfold smooth_spec, smooth_window, np_ones.
    rewrite decide_True by done. rewrite decide_False by lia.
    unfold res_bind at 1 2. rewrite flat_window by lia.
    assert (res_map
              (λ r, nd_convolve r
                      (replicate (Z.to_nat filter_win)
                         (Fin (1 / INR (Z.to_nat filter_win)))) mode)
              (rows a)
            = Ok (rows a)) as ->.
    { assert (rows a = (λ c, replicate n (Fin c)) <$> cs) as ->.
      { unfold a, fin_matrix. cbn [rows]. rewrite <- list_fmap_compose.
        apply list_fmap_ext. intros _ c _. apply fmap_replicate. }
      apply res_map_constant; [done|lia|lia]. }
    unfold res_bind. by rewrite ndarray_eta. }
  by rewrite insert_id.
Qed.

Lemma smooth_keeps_constant_rows_witness :
  smooth 1%positive 3 "flat" "reflect"
    (store1 (fin_matrix 2 ((λ c, replicate 2 c) <$> [1; 3]%R)))
  = (Ok 1%positive,
     store1 (fin_matrix 2 ((λ c, replicate 2 c) <$> [1; 3]%R))).
Proof.
  apply (smooth_keeps_constant_rows _ 1%positive 2 [1; 3]%R 3 "reflect").
  - apply lookup_singleton_eq.
  - lia.
  - unfold sample_mode. rewrite !elem_of_cons. tauto.
Defined.

(** ** A reference that is zero everywhere *)

Section ZeroReference.
Local Open Scope R_scope.
Implicit Types (v x ref : list R) (m : list (list R)).

Lemma rdot_zero x : (∀ t, t ∈ x → t = 0) → rdot x x = 0.
Proof.
  intros Hx. rewrite <- rdot_self.
  induction x as [|t x IH]; [done|].
  rewrite fmap_cons, rsum_cons, IH.
  - rewrite (Hx t) by (apply elem_of_cons; by left). ring.
  - intros u Hu. apply Hx, elem_of_cons. by right.
Qed.
End ZeroReference.

(** X11. [msc] cannot fit against a reference given by the caller that is
    zero in every channel: the column of the reference in the
    least-squares system of [np.polyfit] is 0/0, and the first fit raises
    [LinAlgError], whatever the finite spectra are. *)
Theorem msc_zero_reference_raises (σ : heap xreal) (l : loc) (n : nat)
    (v : list R) (m : list (list R)) (ref : list R) :
  σ !! l = Some (fin_matrix n (v :: m)) →
  ref ≠ [] →
  length ref = length v →
  (∀ t, t ∈ ref → t = 0%R) →
  (msc l (Some (Fin <$> ref)) σ).1
  = Err (LinAlgError "SVD did not converge in Linear Least Squares").
Proof.
  intros Hl Hne Hlen Hzero.
  pose proof (msc_outcome σ l _ (Some (Fin <$> ref)) Hl) as Hout.
  assert (msc_spec (fin_matrix n (v :: m)) (Some (Fin <$> ref))
          = Err (LinAlgError "SVD did not converge in Linear Least Squares"))
    as Hspec; [|by rewrite Hspec in Hout].
  unfold msc_spec. rewrite center_rows_fin.
  cbn [msc_reference fin_matrix rows fmap list_fmap res_map].
  unfold msc_row at 1. rewrite polyfit_fin_zero; [done|done| |].
  - unfold rcenter. by rewrite length_fmap.
  - by apply rdot_zero.
Qed.

Lemma msc_zero_reference_raises_witness :
  (msc 1%positive (Some (Fin <$> [0; 0; 0]%R))
     (store1 (fin_matrix 3 [[1; 2; 3]; [2; 2; 2]]%R))).1
  = Err (LinAlgError "SVD did not converge in Linear Least Squares").
Proof.
  apply (msc_zero_reference_raises _ 1%positive 3 [1; 2; 3]%R
           [[2; 2; 2]%R] [0; 0; 0]%R).
  - apply lookup_singleton_eq.
  - done.
  - reflexivity.
  - intros t Ht. rewrite !elem_of_cons in Ht.
    destruct_or!; try done. by apply elem_of_nil in Ht.
Defined.
